(** * weather.py: a verification development

    The program provisions a four-table MySQL schema and then runs one
    collection batch over a fixed list of cities.

    The relational store is embedded as a record of optional tables (a
    table that was never created is [None]), each table a list of rows in
    insertion order.  A connection is a pair of a committed and a working
    image of the store, so that the placement of every [con.commit()] of
    the source is visible: the connector opens connections with autocommit
    off, statements act on the working image, a commit publishes it, and
    closing the connection drops what was not committed.  Data definition
    statements commit by themselves.  Names and dates are compared as they
    are stored.

    The geocoding and forecast providers, the clock and the failures of
    the store are inputs ("the world").  The answers of the providers are
    typed as the providers document them: every key the program reads is
    there (an answer that lacks one would raise a [KeyError], which this
    development does not cover).  Python exceptions are values of
    [exn]; the per-city pipeline runs in a state monad in which a raised
    exception keeps the connection as it was at that point. *)

From Stdlib Require Import ZArith QArith List String Ascii Bool Lia.
Import ListNotations.

Local Open Scope string_scope.
Local Open Scope Z_scope.

(** ** Python values the program handles *)

(** A JSON number (a finite double) is a rational; the comparisons the
    program performs on such numbers are the comparisons of rationals. *)
Definition number := Q.

Definition Qltb (x y : Q) : bool := negb (Qle_bool y x).

(** The exception classes that can reach the handlers of the program.
    [KeyboardInterrupt] derives from [BaseException] only; all the others
    derive from [Exception]; [DbError] stands for [mysql.connector.Error]. *)
Inductive exn : Type :=
| RequestError (reason : string)
| ValueError (msg : string)
| IndexError
| TypeError
| DbError (msg : string)
| KeyboardInterrupt.

Definition is_Exception (e : exn) : bool :=
  match e with
  | KeyboardInterrupt => false
  | _ => true
  end.

Definition is_mysql_Error (e : exn) : bool :=
  match e with
  | DbError _ => true
  | _ => false
  end.

(** [datetime.now()]: the fields the program reads, with the two values it
    obtains from the library ([strftime("%A")] and [isocalendar()[1]]). *)
Record datetime : Type := {
  dt_year : Z;
  dt_month : Z;
  dt_day : Z;
  dt_hour : Z;
  dt_minute : Z;
  dt_second : Z;
  dt_day_name : string;
  dt_iso_week : Z
}.

Definition date : Type := (Z * Z * Z)%type.

Definition date_of (d : datetime) : date := (dt_year d, dt_month d, dt_day d).

Definition date_eqb (a b : date) : bool :=
  let '(y1, m1, d1) := a in
  let '(y2, m2, d2) := b in
  (y1 =? y2) && (m1 =? m2) && (d1 =? d2).

Definition digit (n : Z) : ascii := ascii_of_nat (48 + Z.to_nat (n mod 10)).

Definition pad2 (n : Z) : string :=
  String (digit (n / 10)) (String (digit n) EmptyString).

Definition pad4 (n : Z) : string :=
  String (digit (n / 1000)) (String (digit (n / 100)) (pad2 n)).

(** [date.isoformat()], that is [YYYY-MM-DD] (Python years are 1..9999). *)
Definition isoformat (d : date) : string :=
  let '(y, m, dd) := d in
  pad4 y ++ "-" ++ pad2 m ++ "-" ++ pad2 dd.

(** [now.strftime('%H:%M:%S')] *)
Definition strftime_HMS (d : datetime) : string :=
  pad2 (dt_hour d) ++ ":" ++ pad2 (dt_minute d) ++ ":" ++ pad2 (dt_second d).

(** One element of [data["list"]] of the forecast response. *)
Record entry : Type := {
  dt_txt : string;
  main_temp : number;
  main_humidity : number;
  wind_speed_of : number;
  weather : list string  (* the [description] of each element of [weather] *)
}.

(** ** The relational store *)

Record city_row : Type := {
  city_id : Z;
  name : string;
  lat : number;
  lon : number
}.

Record date_row : Type := {
  date_id : Z;
  full_date : date;
  year : Z;
  month : Z;
  day : Z;
  quarter : Z;
  day_name : string;
  week_of_year : Z
}.

(** The measurement columns shared by the two fact tables. *)
Record reading : Type := {
  temp_now : number;
  temp_min : number;
  temp_max : number;
  humidity : number;
  wind_speed : number;
  condition_text : string
}.

Record current_row : Type := {
  cw_city_id : Z;
  cw_reading : reading;
  last_updated : datetime
}.

Record history_row : Type := {
  history_id : Z;
  hw_city_id : Z;
  hw_date_id : Z;
  time_measured : string;
  hw_reading : reading
}.

(** A table with an [AUTO_INCREMENT] key: its rows in insertion order and
    the next generated key. *)
Record table (R : Type) : Type := {
  rows : list R;
  auto_increment : Z
}.
Arguments rows {R} _.
Arguments auto_increment {R} _.

Definition empty_table (R : Type) : table R :=
  {| rows := []; auto_increment := 1 |}.

Record db : Type := {
  dim_city : option (table city_row);
  dim_date : option (table date_row);
  current_weather : option (list current_row);
  historical_weather : option (table history_row)
}.

Definition no_tables : db :=
  {| dim_city := None; dim_date := None;
     current_weather := None; historical_weather := None |}.

Definition set_dim_city (t : table city_row) (d : db) : db :=
  {| dim_city := Some t; dim_date := dim_date d;
     current_weather := current_weather d;
     historical_weather := historical_weather d |}.

Definition set_dim_date (t : table date_row) (d : db) : db :=
  {| dim_city := dim_city d; dim_date := Some t;
     current_weather := current_weather d;
     historical_weather := historical_weather d |}.

Definition set_current_weather (t : list current_row) (d : db) : db :=
  {| dim_city := dim_city d; dim_date := dim_date d;
     current_weather := Some t;
     historical_weather := historical_weather d |}.

Definition set_historical_weather (t : table history_row) (d : db) : db :=
  {| dim_city := dim_city d; dim_date := dim_date d;
     current_weather := current_weather d;
     historical_weather := Some t |}.

(** The rows of a table, none when the table does not exist. *)
Definition city_rows (d : db) : list city_row :=
  match dim_city d with Some t => rows t | None => [] end.

Definition date_rows (d : db) : list date_row :=
  match dim_date d with Some t => rows t | None => [] end.

Definition current_rows (d : db) : list current_row :=
  match current_weather d with Some t => t | None => [] end.

Definition history_rows (d : db) : list history_row :=
  match historical_weather d with Some t => rows t | None => [] end.

(** ** Schema provisioning *)

Inductive table_name : Type :=
| Tdim_city | Tdim_date | Tcurrent_weather | Thistorical_weather.

(** What the store answers during [create_schema]: whether the connection
    can be opened and, per table, whether the account may run [CREATE
    TABLE] on it. *)
Record schema_env : Type := {
  schema_connect : bool;
  create_priv : table_name -> bool
}.

Inductive output : Type :=
| SchemaCreated                       (* "Schema created" *)
| SchemaErrorLine (e : exn)           (* "Error creating schema: ..." *)
| DbErrorLine (e : exn)               (* "DB Error: ..." *)
| ReportHeader                        (* "--- Report ---" *)
| SuccessLine (city : string) (t : number)
| FailureLine (city : string) (e : exn)
| EtlComplete.                        (* "ETL Complete." *)

Definition access_denied : exn := DbError "access denied".
Definition cannot_connect : exn := DbError "cannot connect".
Definition no_such_table : exn := DbError "table does not exist".
Definition fk_fails : exn := DbError "foreign key constraint fails".
Definition duplicate_entry : exn := DbError "duplicate entry".

(** [CREATE TABLE IF NOT EXISTS t (...)]: a statement of its own
    transaction (DDL commits implicitly).  The two fact tables declare
    foreign keys, whose target tables have to exist. *)
Definition create_table_if_not_exists (env : schema_env) (t : table_name)
  (d : db) : exn + db :=
  if negb (create_priv env t) then inl access_denied else
  match t with
  | Tdim_city =>
      match dim_city d with
      | Some _ => inr d
      | None => inr (set_dim_city (empty_table city_row) d)
      end
  | Tdim_date =>
      match dim_date d with
      | Some _ => inr d
      | None => inr (set_dim_date (empty_table date_row) d)
      end
  | Tcurrent_weather =>
      match current_weather d with
      | Some _ => inr d
      | None =>
          match dim_city d with
          | Some _ => inr (set_current_weather [] d)
          | None => inl fk_fails
          end
      end
  | Thistorical_weather =>
      match historical_weather d with
      | Some _ => inr d
      | None =>
          match dim_city d, dim_date d with
          | Some _, Some _ =>
              inr (set_historical_weather (empty_table history_row) d)
          | _, _ => inl fk_fails
          end
      end
  end.

(** The statements of [create_schema] in order; the first one that raises
    ends the [try] body, the tables created before it stay. *)
Fixpoint run_ddl (env : schema_env) (ts : list table_name) (d : db)
  : option exn * db :=
  match ts with
  | [] => (None, d)
  | t :: ts' =>
      match create_table_if_not_exists env t d with
      | inl e => (Some e, d)
      | inr d' => run_ddl env ts' d'
      end
  end.

Definition schema_tables : list table_name :=
  [Tdim_city; Tdim_date; Tcurrent_weather; Thistorical_weather].

(** [create_schema()]: the store it leaves and what it prints.  Every
    [mysql.connector.Error] is caught inside; the function returns
    normally in both cases. *)
Definition create_schema (env : schema_env) (d : db) : db * list output :=
  if negb (schema_connect env) then (d, [SchemaErrorLine cannot_connect]) else
  match run_ddl env schema_tables d with
  | (Some e, d') => (d', [SchemaErrorLine e])
  | (None, d') => (d', [SchemaCreated])
  end.


(** ** Connections and the statements of the batch *)

(** A connection opened with autocommit off: statements change [working];
    [con.commit()] makes [working] the committed image; closing the
    connection discards what was not committed. *)
Record conn : Type := {
  committed : db;
  working : db
}.

Definition connect (d : db) : conn := {| committed := d; working := d |}.

(** The statements and commits of one city's pipeline, in source order. *)
Inductive stmt_id : Type :=
| InsertCity | CommitCity | SelectCity
| SelectDate | InsertDate | CommitDate
| UpsertCurrent | InsertHistory | CommitFacts.

(** What the outside gives to the pipeline of one city. *)
Record city_world : Type := {
  (* the geocoding request: an exception of [requests], or the JSON list *)
  w_geocode : exn + list (number * number);
  (* [datetime.now()] *)
  w_now : datetime;
  (* the forecast request: an exception, or [data["list"]] *)
  w_forecast : exn + list entry;
  (* [NOW()] of the server at the upsert *)
  w_server_now : datetime;
  (* a failure of the store at a statement (lost connection, lock wait
     timeout, ...), or an interrupt arriving there *)
  w_fault : stmt_id -> option exn
}.

(** State and exceptions: an exception leaves the connection as it is. *)
Definition M (A : Type) : Type := conn -> (exn + A) * conn.

Definition ret {A} (a : A) : M A := fun c => (inr a, c).

Definition raise {A} (e : exn) : M A := fun c => (inl e, c).

Definition bind {A B} (m : M A) (k : A -> M B) : M B :=
  fun c =>
    match m c with
    | (inl e, c') => (inl e, c')
    | (inr a, c') => k a c'
    end.

Notation "x <- m ;; k" := (bind m (fun x => k))
  (at level 61, m at next level, right associativity).
Notation "' pat <- m ;; k" := (bind m (fun x => match x with pat => k end))
  (at level 61, pat pattern, m at next level, right associativity).

Definition lift {A} (r : exn + A) : M A :=
  match r with
  | inl e => raise e
  | inr a => ret a
  end.

(** [cur.execute(...)]: the statement acts on the working image unless the
    store fails at it. *)
Definition execute {A} (w : city_world) (k : stmt_id)
  (f : db -> exn + (A * db)) : M A :=
  fun c =>
    match w_fault w k with
    | Some e => (inl e, c)
    | None =>
        match f (working c) with
        | inl e => (inl e, c)
        | inr (a, d) => (inr a, {| committed := committed c; working := d |})
        end
    end.

(** [con.commit()] *)
Definition commit (w : city_world) (k : stmt_id) : M unit :=
  fun c =>
    match w_fault w k with
    | Some e => (inl e, c)
    | None => (inr tt, {| committed := working c; working := working c |})
    end.

(** [INSERT IGNORE INTO dim_city (name, lat, lon) VALUES (...)]: a row
    whose name is already there is skipped without an error; the key that
    was generated for it is consumed all the same, no row is written. *)
Definition insert_ignore_city (city : string) (la lo : number) (d : db)
  : exn + (unit * db) :=
  match dim_city d with
  | None => inl no_such_table
  | Some t =>
      if existsb (fun r => String.eqb (name r) city) (rows t)
      then inr (tt, set_dim_city {| rows := rows t;
                                    auto_increment := auto_increment t + 1 |}
                      d)
      else
        let r := {| city_id := auto_increment t; name := city;
                    lat := la; lon := lo |} in
        inr (tt, set_dim_city {| rows := rows t ++ [r];
                                 auto_increment := auto_increment t + 1 |} d)
  end.

(** [SELECT city_id FROM dim_city WHERE name=%s] followed by
    [cur.fetchone()]: the first row found, or [None]. *)
Definition select_city_id (city : string) (d : db)
  : exn + (option Z * db) :=
  match dim_city d with
  | None => inl no_such_table
  | Some t =>
      inr (option_map city_id
             (find (fun r => String.eqb (name r) city) (rows t)), d)
  end.

(** [SELECT date_id FROM dim_date WHERE full_date=%s] and [fetchone()]. *)
Definition select_date_id (fd : date) (d : db) : exn + (option Z * db) :=
  match dim_date d with
  | None => inl no_such_table
  | Some t =>
      inr (option_map date_id
             (find (fun r => date_eqb (full_date r) fd) (rows t)), d)
  end.

(** [INSERT INTO dim_date (...) VALUES (...)]; the result is
    [cur.lastrowid].  [full_date] is UNIQUE. *)
Definition insert_date (now : datetime) (q : Z) (d : db) : exn + (Z * db) :=
  match dim_date d with
  | None => inl no_such_table
  | Some t =>
      if existsb (fun r => date_eqb (full_date r) (date_of now)) (rows t)
      then inl duplicate_entry
      else
        let r := {| date_id := auto_increment t; full_date := date_of now;
                    year := dt_year now; month := dt_month now;
                    day := dt_day now; quarter := q;
                    day_name := dt_day_name now;
                    week_of_year := dt_iso_week now |} in
        inr (auto_increment t,
             set_dim_date {| rows := rows t ++ [r];
                             auto_increment := auto_increment t + 1 |} d)
  end.

Definition has_city (cid : Z) (d : db) : bool :=
  existsb (fun r => city_id r =? cid) (city_rows d).

Definition has_date (did : Z) (d : db) : bool :=
  existsb (fun r => date_id r =? did) (date_rows d).

(** [INSERT INTO current_weather (...) VALUES (...) ON DUPLICATE KEY UPDATE
    ..., last_updated=NOW()]: [city_id] is the primary key and a foreign
    key into [dim_city]. *)
Definition upsert_current (cid : Z) (rd : reading) (srv : datetime) (d : db)
  : exn + (unit * db) :=
  match current_weather d with
  | None => inl no_such_table
  | Some t =>
      if negb (has_city cid d) then inl fk_fails else
      let r := {| cw_city_id := cid; cw_reading := rd;
                  last_updated := srv |} in
      if existsb (fun x => cw_city_id x =? cid) t
      then inr (tt, set_current_weather
                      (map (fun x => if cw_city_id x =? cid then r else x) t) d)
      else inr (tt, set_current_weather (t ++ [r]) d)
  end.

(** [INSERT INTO historical_weather (...) VALUES (...)] *)
Definition insert_history (cid did : Z) (tm : string) (rd : reading) (d : db)
  : exn + (unit * db) :=
  match historical_weather d with
  | None => inl no_such_table
  | Some t =>
      if negb (has_city cid d) || negb (has_date did d) then inl fk_fails else
      let r := {| history_id := auto_increment t; hw_city_id := cid;
                  hw_date_id := did; time_measured := tm;
                  hw_reading := rd |} in
      inr (tt, set_historical_weather
                 {| rows := rows t ++ [r];
                    auto_increment := auto_increment t + 1 |} d)
  end.

(** ** The functions of weather.py *)

(** [get_city_coordinates(city)] *)
Definition get_city_coordinates (w : city_world) (city : string)
  : exn + (number * number) :=
  match w_geocode w with
  | inl e => inl e
  | inr [] => inl (ValueError ("No coordinates for " ++ city))
  | inr (p :: _) => inr p
  end.

(** [get_or_create_city(con, city, lat, lon)]; [fetchone()[0]] on [None]
    is a [TypeError]. *)
Definition get_or_create_city (w : city_world) (city : string)
  (la lo : number) : M Z :=
  _ <- execute w InsertCity (insert_ignore_city city la lo) ;;
  _ <- commit w CommitCity ;;
  row <- execute w SelectCity (select_city_id city) ;;
  match row with
  | Some cid => ret cid
  | None => raise TypeError
  end.

(** [get_or_create_date(con, date_obj)] *)
Definition get_or_create_date (w : city_world) (date_obj : datetime) : M Z :=
  row <- execute w SelectDate (select_date_id (date_of date_obj)) ;;
  match row with
  | Some did => ret did
  | None =>
      let q := (dt_month date_obj - 1) / 3 + 1 in
      did <- execute w InsertDate (insert_date date_obj q) ;;
      _ <- commit w CommitDate ;;
      ret did
  end.

(** [min(temps)] and [max(temps)] on a non-empty list: the running
    element is replaced by a strictly smaller (larger) one. *)
Definition py_min (t : number) (ts : list number) : number :=
  fold_left (fun m x => if Qltb x m then x else m) ts t.

Definition py_max (t : number) (ts : list number) : number :=
  fold_left (fun m x => if Qltb m x then x else m) ts t.

(** Lines 144-151: the temperatures of the entries whose [dt_txt] starts
    with today's date, the first entry of the whole list when there is
    none ([data["list"][0]] on an empty list is an [IndexError]). *)
Definition today_temps (today_str : string) (data : list entry)
  : list number :=
  map main_temp (filter (fun e => String.prefix today_str (dt_txt e)) data).

Definition aggregate (today_str : string) (data : list entry)
  : exn + (number * number * number) :=
  match today_temps today_str data with
  | t :: ts => inr (t, py_min t ts, py_max t ts)
  | [] =>
      match data with
      | [] => inl IndexError
      | e :: _ =>
          let t := main_temp e in inr (t, py_min t [], py_max t [])
      end
  end.

(** Lines 153-156 *)
Definition current_conditions (data : list entry)
  : exn + (number * number * string) :=
  match data with
  | [] => inl IndexError
  | curr :: _ =>
      match weather curr with
      | [] => inl IndexError
      | descr :: _ => inr (main_humidity curr, wind_speed_of curr, descr)
      end
  end.

(** Lines 143-156 together: the measurements written for the city. *)
Definition build_reading (today_str : string) (data : list entry)
  : exn + reading :=
  match aggregate today_str data with
  | inl e => inl e
  | inr (t_now, t_min, t_max) =>
      match current_conditions data with
      | inl e => inl e
      | inr (hum, wind, cond) =>
          inr {| temp_now := t_now; temp_min := t_min; temp_max := t_max;
                 humidity := hum; wind_speed := wind;
                 condition_text := cond |}
      end
  end.

(** The body of the [try] of the loop of [collect_weather], for one city;
    its value is [temp_now], which the success line shows. *)
Definition process_city (w : city_world) (city : string) : M number :=
  '(la, lo) <- lift (get_city_coordinates w city) ;;
  cid <- get_or_create_city w city la lo ;;
  let now := w_now w in
  did <- get_or_create_date w now ;;
  let tm := strftime_HMS now in
  data <- lift (w_forecast w) ;;
  let today_str := isoformat (date_of now) in
  rd <- lift (build_reading today_str data) ;;
  _ <- execute w UpsertCurrent (upsert_current cid rd (w_server_now w)) ;;
  _ <- execute w InsertHistory (insert_history cid did tm rd) ;;
  _ <- commit w CommitFacts ;;
  ret (temp_now rd).

Inductive report_entry : Type :=
| Success (city : string) (t : number)
| Failure (city : string) (e : exn).

Definition entry_city (r : report_entry) : string :=
  match r with
  | Success c _ => c
  | Failure c _ => c
  end.

Definition is_failure (r : report_entry) : bool :=
  match r with
  | Success _ _ => false
  | Failure _ _ => true
  end.

(** The [for] loop: [ws i] is the world met by the [i]-th city.  [except
    Exception] turns an exception of a city into a failure entry; what does
    not derive from [Exception] leaves the loop. *)
Fixpoint collect_loop (ws : nat -> city_world) (i : nat)
  (cities : list string) (results : list report_entry) (c : conn)
  : option exn * list report_entry * conn :=
  match cities with
  | [] => (None, results, c)
  | city :: rest =>
      match process_city (ws i) city c with
      | (inr t, c') =>
          collect_loop ws (S i) rest (results ++ [Success city t]) c'
      | (inl e, c') =>
          if is_Exception e
          then collect_loop ws (S i) rest (results ++ [Failure city e]) c'
          else (Some e, results, c')
      end
  end.

Definition report_line (r : report_entry) : output :=
  match r with
  | Success c t => SuccessLine c t
  | Failure c e => FailureLine c e
  end.

(** How a call ends: it returns, or an exception leaves it. *)
Inductive ending : Type :=
| Returned
| Raised (e : exn).

Record run : Type := {
  final_db : db;
  printed : list output;
  processed : list report_entry;
  ended : ending
}.

(** [collect_weather()] over [cities]: [connect_ok] says whether the
    connection of the batch can be opened.  Leaving the [with] block closes
    the connection, so the store is left at the committed image. *)
Definition collect_weather (connect_ok : bool) (ws : nat -> city_world)
  (cities : list string) (d : db) : run :=
  if negb connect_ok
  then {| final_db := d; printed := [DbErrorLine cannot_connect];
          processed := []; ended := Returned |}
  else
    match collect_loop ws 0 cities [] (connect d) with
    | (None, results, c) =>
        {| final_db := committed c;
           printed := ReportHeader :: map report_line results;
           processed := results; ended := Returned |}
    | (Some e, results, c) =>
        if is_mysql_Error e
        then {| final_db := committed c; printed := [DbErrorLine e];
                processed := results; ended := Returned |}
        else {| final_db := committed c; printed := [];
                processed := results; ended := Raised e |}
    end.

(** The fixed list of the program. *)
Definition cities : list string :=
  ["Casablanca"; "Marrakech"; "Rabat"; "Agadir"; "Safi"; "Laayoune";
   "Guelmim"; "Tanger"; "Nador"; "Meknes"; "Kenitra"; "Oujda"; "Fes"].

(** The world of one run of the program. *)
Record world : Type := {
  w_schema : schema_env;
  w_connect : bool;
  w_city : nat -> city_world
}.

(** The [__main__] block over a list of cities. *)
Definition main_on (cs : list string) (w : world) (d : db) : run :=
  let '(d1, out1) := create_schema (w_schema w) d in
  let r := collect_weather (w_connect w) (w_city w) cs d1 in
  match ended r with
  | Returned =>
      {| final_db := final_db r;
         printed := out1 ++ printed r ++ [EtlComplete];
         processed := processed r; ended := Returned |}
  | Raised e =>
      {| final_db := final_db r; printed := out1 ++ printed r;
         processed := processed r; ended := Raised e |}
  end.


(** * Notions used in the statements *)

(** The entries dated today, in the order of the forecast. *)
Definition today_entries (today_str : string) (data : list entry)
  : list entry :=
  filter (fun e => String.prefix today_str (dt_txt e)) data.

(** [m] is the least (greatest) element of the non-empty list [l]. *)
Definition is_min_of (m : number) (l : list number) : Prop :=
  In m l /\ forall x, In x l -> (m <= x)%Q.

Definition is_max_of (m : number) (l : list number) : Prop :=
  In m l /\ forall x, In x l -> (x <= m)%Q.

(** An environment in which [create_schema] meets no failure. *)
Definition healthy (env : schema_env) : bool :=
  schema_connect env && forallb (create_priv env) schema_tables.

(** The number of rows of [dim_city] that carry the name [city]. *)
Definition count_named (city : string) (d : db) : nat :=
  List.length (filter (fun r => String.eqb (name r) city) (city_rows d)).

(** The store does not fail at the statements of [get_or_create_city]. *)
Definition city_stmts_quiet (w : city_world) : Prop :=
  w_fault w InsertCity = None /\ w_fault w CommitCity = None /\
  w_fault w SelectCity = None.

(** From a connection satisfying [P], the computation [m] either returns
    [a] in a connection satisfying [Q a], or raises [e] in a connection
    satisfying [E e]. *)
Definition triple {A} (P : conn -> Prop) (m : M A)
  (Q : A -> conn -> Prop) (E : exn -> conn -> Prop) : Prop :=
  forall c, P c ->
            match m c with
            | (inr a, c') => Q a c'
            | (inl e, c') => E e c'
            end.

Definition all_stmts : list stmt_id :=
  [InsertCity; CommitCity; SelectCity; SelectDate; InsertDate; CommitDate;
   UpsertCurrent; InsertHistory; CommitFacts].

Definition raises_Exception {A} (r : exn + A) : bool :=
  match r with
  | inl e => is_Exception e
  | inr _ => true
  end.

(** Whatever the providers and the store raise for this city derives from
    [Exception] (no interrupt arrives). *)
Definition exceptions_only (w : city_world) : bool :=
  raises_Exception (w_geocode w) && raises_Exception (w_forecast w) &&
  forallb (fun k => match w_fault w k with
                    | Some e => is_Exception e
                    | None => true
                    end) all_stmts.

Definition raises_only_Exception {A} (f : db -> exn + (A * db)) : Prop :=
  forall d e, f d = inl e -> is_Exception e = true.

Definition Exception_raised : exn -> conn -> Prop :=
  fun e _ => is_Exception e = true.

(** The entry of one city and the connection it leaves: success with the
    temperature, or failure with the exception. *)
Definition one_city (ws : nat -> city_world) (i : nat) (city : string)
  (c : conn) : report_entry * conn :=
  match process_city (ws i) city c with
  | (inr t, c') => (Success city t, c')
  | (inl e, c') => (Failure city e, c')
  end.

(** The report as the specification words it: every city in turn, each
    from the connection left by the one before, one entry per city. *)
Fixpoint isolate_each (ws : nat -> city_world) (i : nat)
  (cs : list string) (c : conn) : list report_entry * conn :=
  match cs with
  | [] => ([], c)
  | city :: rest =>
      let r := one_city ws i city c in
      let rs := isolate_each ws (S i) rest (snd r) in
      (fst r :: fst rs, snd rs)
  end.

(** The date dimension after a resolution that returned [did]: the row was
    found, or it was inserted with the next key and committed. *)
Definition date_resolved (now : datetime) (d : db) (did : Z) (d' : db)
  : Prop :=
  (select_date_id (date_of now) d = inr (Some did, d) /\ d' = d) \/
  (select_date_id (date_of now) d = inr (None, d) /\
   insert_date now ((dt_month now - 1) / 3 + 1) d = inr (did, d')).

(** The local values of a run of the pipeline that succeeded. *)
Record success_trace : Type := {
  tr_lat : number;
  tr_lon : number;
  tr_city_id : Z;
  tr_date_id : Z;
  tr_data : list entry;
  tr_reading : reading;
  tr_db_city : db;      (* after [get_or_create_city] *)
  tr_db_date : db;      (* after [get_or_create_date] *)
  tr_db_current : db;   (* after the upsert *)
  tr_db_final : db      (* after the insert into the history *)
}.

Definition succeeded (w : city_world) (city : string) (c : conn)
  (tr : success_trace) : Prop :=
  get_city_coordinates w city = inr (tr_lat tr, tr_lon tr) /\
  insert_ignore_city city (tr_lat tr) (tr_lon tr) (working c)
  = inr (tt, tr_db_city tr) /\
  select_city_id city (tr_db_city tr)
  = inr (Some (tr_city_id tr), tr_db_city tr) /\
  date_resolved (w_now w) (tr_db_city tr) (tr_date_id tr) (tr_db_date tr) /\
  w_forecast w = inr (tr_data tr) /\
  build_reading (isoformat (date_of (w_now w))) (tr_data tr)
  = inr (tr_reading tr) /\
  upsert_current (tr_city_id tr) (tr_reading tr) (w_server_now w)
    (tr_db_date tr) = inr (tt, tr_db_current tr) /\
  insert_history (tr_city_id tr) (tr_date_id tr) (strftime_HMS (w_now w))
    (tr_reading tr) (tr_db_current tr) = inr (tt, tr_db_final tr).

(** The statement [f], run on the working image, keeps [I]. *)
Definition keeps {A} (I : conn -> Prop) (f : db -> exn + (A * db)) : Prop :=
  forall c a d, I c -> f (working c) = inr (a, d) ->
                I {| committed := committed c; working := d |}.

Definition commit_keeps (I : conn -> Prop) : Prop :=
  forall c, I c -> I {| committed := working c; working := working c |}.

(** After the city was resolved to [cid]: the invariant [I], and [cid] is
    what the working image answers for the name. *)
Definition resolved_as (I : conn -> Prop) (city : string) (cid : Z)
  : conn -> Prop :=
  fun c => I c /\ select_city_id city (working c) = inr (Some cid, working c).

Definition prefix_of {A} (l l' : list A) : Prop := exists k, l' = (l ++ k)%list.

Definition current_keys (d : db) : list Z := map cw_city_id (current_rows d).

(** From [d] to [d']: the rows of the two dimensions and of the history
    are kept as they are, in place, and rows are only added after them;
    the keys of the current table are kept and keys are only added. *)
Record grows (d d' : db) : Prop := {
  grows_city : prefix_of (city_rows d) (city_rows d');
  grows_date : prefix_of (date_rows d) (date_rows d');
  grows_current : prefix_of (current_keys d) (current_keys d');
  grows_history : prefix_of (history_rows d) (history_rows d')
}.

(** The committed image has grown from [d0], the working image from the
    committed one and from [d1]. *)
Definition growing (d0 d1 : db) (c : conn) : Prop :=
  grows d0 (committed c) /\ grows (committed c) (working c) /\
  grows d1 (working c).

Fixpoint distinct (l : list Z) : bool :=
  match l with
  | [] => true
  | x :: l' => negb (existsb (Z.eqb x) l') && distinct l'
  end.

(** The primary key of [current_weather] holds in [d]. *)
Definition pk_ok (d : db) : bool := distinct (current_keys d).

(** The rows of [current_weather] of the city [cid]. *)
Definition rows_for (cid : Z) (d : db) : list current_row :=
  filter (fun x => cw_city_id x =? cid) (current_rows d).

Definition pk_holds (c : conn) : Prop :=
  pk_ok (committed c) = true /\ pk_ok (working c) = true.

Definition written_current (w : city_world) (tr : success_trace)
  : current_row :=
  {| cw_city_id := tr_city_id tr; cw_reading := tr_reading tr;
     last_updated := w_server_now w |}.

Definition written_history (w : city_world) (tr : success_trace) (hid : Z)
  : history_row :=
  {| history_id := hid; hw_city_id := tr_city_id tr;
     hw_date_id := tr_date_id tr; time_measured := strftime_HMS (w_now w);
     hw_reading := tr_reading tr |}.

(** The number of history rows of the city [cid]. *)
Definition count_history (cid : Z) (d : db) : nat :=
  List.length (filter (fun r => hw_city_id r =? cid) (history_rows d)).

(** The keys of [dim_city] are pairwise different and below the next
    generated key. *)
Definition city_keys_ok (d : db) : bool :=
  match dim_city d with
  | None => true
  | Some t =>
      distinct (map city_id (rows t)) &&
      forallb (fun r => city_id r <? auto_increment t) (rows t)
  end.

(** The rows [cr], [dr], [hr] are in the store, the city of [cr] has a
    current row, and the keys of [dim_city] are in order. *)
Definition holds_rows (cr : city_row) (dr : date_row) (hr : history_row)
  (d : db) : Prop :=
  city_keys_ok d = true /\ In cr (city_rows d) /\ In dr (date_rows d) /\
  In hr (history_rows d) /\ In (city_id cr) (current_keys d).

Definition on_both (J : db -> Prop) (c : conn) : Prop :=
  J (committed c) /\ J (working c).

(** With that, the current row [sr] of the city of [cr] is in the store. *)
Definition holds_current (cr : city_row) (dr : date_row) (hr : history_row)
  (sr : current_row) (d : db) : Prop :=
  holds_rows cr dr hr d /\ In sr (current_rows d).

(** The pipeline up to and with the upsert (lines 132-167), and what
    follows it (lines 170-177). *)
Definition up_to_upsert (w : city_world) (city : string)
  : M (Z * Z * reading) :=
  '(la, lo) <- lift (get_city_coordinates w city) ;;
  cid <- get_or_create_city w city la lo ;;
  let now := w_now w in
  did <- get_or_create_date w now ;;
  data <- lift (w_forecast w) ;;
  let today_str := isoformat (date_of now) in
  rd <- lift (build_reading today_str data) ;;
  _ <- execute w UpsertCurrent (upsert_current cid rd (w_server_now w)) ;;
  ret (cid, did, rd).

Definition after_upsert (w : city_world) (x : Z * Z * reading) : M number :=
  let '(cid, did, rd) := x in
  _ <- execute w InsertHistory
         (insert_history cid did (strftime_HMS (w_now w)) rd) ;;
  _ <- commit w CommitFacts ;;
  ret (temp_now rd).

(** ** Notions for the date dimension and the whole run *)

(** The number of rows of [dim_date] that carry the calendar date [fd]. *)
Definition count_dated (fd : date) (d : db) : nat :=
  List.length (filter (fun r => date_eqb (full_date r) fd) (date_rows d)).

(** The store does not fail at the statements of [get_or_create_date]. *)
Definition date_stmts_quiet (w : city_world) : Prop :=
  w_fault w SelectDate = None /\ w_fault w InsertDate = None /\
  w_fault w CommitDate = None.

(** The row that [get_or_create_date] inserts for [now] under the key
    [did] (lines 108-118). *)
Definition new_date_row (now : datetime) (did : Z) : date_row :=
  {| date_id := did; full_date := date_of now;
     year := dt_year now; month := dt_month now; day := dt_day now;
     quarter := (dt_month now - 1) / 3 + 1;
     day_name := dt_day_name now; week_of_year := dt_iso_week now |}.

(** The dates that [isoformat] writes with four, two and two digits. *)
Definition printable_date (d : date) : Prop :=
  let '(y, m, dd) := d in
  0 <= y <= 9999 /\ 0 <= m <= 99 /\ 0 <= dd <= 99.

(** The four tables exist. *)
Definition provisioned (d : db) : bool :=
  match dim_city d, dim_date d, current_weather d, historical_weather d with
  | Some _, Some _, Some _, Some _ => true
  | _, _, _, _ => false
  end.

(** A city for which the geocoder has a match, the forecast has a first
    entry with a weather element, and the store does not fail. *)
Definition answers (w : city_world) : bool :=
  match w_geocode w with inr (_ :: _) => true | _ => false end &&
  match w_forecast w with
  | inr (e :: _) => match weather e with [] => false | _ :: _ => true end
  | _ => false
  end &&
  forallb (fun k => match w_fault w k with
                    | Some _ => false
                    | None => true
                    end) all_stmts.

Definition all_success (rs : list report_entry) : bool :=
  forallb (fun r => negb (is_failure r)) rs.

(** The table [t] exists in [d]. *)
Definition has_table (t : table_name) (d : db) : bool :=
  match t with
  | Tdim_city => match dim_city d with Some _ => true | None => false end
  | Tdim_date => match dim_date d with Some _ => true | None => false end
  | Tcurrent_weather =>
      match current_weather d with Some _ => true | None => false end
  | Thistorical_weather =>
      match historical_weather d with Some _ => true | None => false end
  end.

(** ** Concrete inputs *)

Definition sample_now : datetime :=
  {| dt_year := 2024; dt_month := 5; dt_day := 1;
     dt_hour := 8; dt_minute := 3; dt_second := 59;
     dt_day_name := "Wednesday"; dt_iso_week := 18 |}.

Definition sample_entry (s : string) (t h wd : Q) (descr : string) : entry :=
  {| dt_txt := s; main_temp := t; main_humidity := h; wind_speed_of := wd;
     weather := [descr] |}.

(** A forecast that starts the evening before: today's entries, with the
    temperatures 20, 22, 19, stand between entries of other days. *)
Definition sample_data : list entry :=
  [ sample_entry "2024-04-30 21:00:00" 30 50 3 "clear sky";
    sample_entry "2024-05-01 09:00:00" 20 60 4 "few clouds";
    sample_entry "2024-05-02 09:00:00" 25 61 5 "light rain";
    sample_entry "2024-05-01 12:00:00" 22 62 6 "light rain";
    sample_entry "2024-05-03 09:00:00" 10 63 7 "light rain";
    sample_entry "2024-05-01 15:00:00" 19 64 8 "light rain" ].

Definition sample_reading : reading :=
  {| temp_now := 20%Q; temp_min := 19%Q; temp_max := 22%Q;
     humidity := 50%Q; wind_speed := 3%Q; condition_text := "clear sky" |}.

(** A city for which everything answers. *)
Definition sample_city_world : city_world :=
  {| w_geocode := inr [(34 # 1, (-6) # 1)];
     w_now := sample_now;
     w_forecast := inr sample_data;
     w_server_now := sample_now;
     w_fault := fun _ => None |}.

(** A city that the geocoder does not know. *)
Definition unknown_city_world : city_world :=
  {| w_geocode := inr [];
     w_now := sample_now;
     w_forecast := inr sample_data;
     w_server_now := sample_now;
     w_fault := fun _ => None |}.

Definition sample_worlds (i : nat) : city_world :=
  if Nat.eqb i 1 then unknown_city_world else sample_city_world.

Definition granting_env : schema_env :=
  {| schema_connect := true; create_priv := fun _ => true |}.


(** An account that may create every table but the history. *)
Definition partial_env : schema_env :=
  {| schema_connect := true;
     create_priv := fun t => match t with
                             | Thistorical_weather => false
                             | _ => true
                             end |}.

(** The store after a first provisioning, and after a partial one. *)
Definition provisioned_db : db := fst (create_schema granting_env no_tables).

Definition partial_db : db := fst (create_schema partial_env no_tables).


Definition after_rabat : conn :=
  snd (process_city sample_city_world "Rabat" (connect provisioned_db)).

Definition rabat_pending : conn :=
  snd (up_to_upsert sample_city_world "Rabat" (connect partial_db)).

(** The same day, in the evening. *)
Definition sample_evening : datetime :=
  {| dt_year := 2024; dt_month := 5; dt_day := 1;
     dt_hour := 21; dt_minute := 40; dt_second := 7;
     dt_day_name := "Wednesday"; dt_iso_week := 18 |}.

(** A city whose forecast request times out. *)
Definition no_forecast_world : city_world :=
  {| w_geocode := inr [(34 # 1, (-6) # 1)];
     w_now := sample_now;
     w_forecast := inl (RequestError "timeout");
     w_server_now := sample_now;
     w_fault := fun _ => None |}.

(** A city at whose geocoding request the interrupt arrives. *)
Definition interrupted_city_world : city_world :=
  {| w_geocode := inl KeyboardInterrupt;
     w_now := sample_now;
     w_forecast := inr sample_data;
     w_server_now := sample_now;
     w_fault := fun _ => None |}.

(** A run in which nothing fails, and one in which the second city is
    interrupted. *)
Definition healthy_world : world :=
  {| w_schema := granting_env; w_connect := true;
     w_city := fun _ => sample_city_world |}.

Definition interrupted_world : world :=
  {| w_schema := granting_env; w_connect := true;
     w_city := fun i => if Nat.eqb i 1 then interrupted_city_world
                        else sample_city_world |}.

(** * Properties *)

(** ** Minimum and maximum *)

Section MinMax.

Local Open Scope Q_scope.

Lemma Qltb_true (x y : Q) : Qltb x y = true -> x < y.
Proof.
  unfold Qltb. intros H. apply negb_true_iff in H.
  apply Qnot_le_lt. intros L. apply Qle_bool_iff in L. congruence.
Qed.

Lemma Qltb_false (x y : Q) : Qltb x y = false -> y <= x.
Proof.
  unfold Qltb. intros H. apply negb_false_iff in H.
  now apply Qle_bool_iff.
Qed.

Lemma py_min_cons (t x : Q) (ts : list Q) :
  py_min t (x :: ts) = py_min (if Qltb x t then x else t) ts.
Proof. reflexivity. Qed.

Lemma py_max_cons (t x : Q) (ts : list Q) :
  py_max t (x :: ts) = py_max (if Qltb t x then x else t) ts.
Proof. reflexivity. Qed.

Lemma py_min_in (ts : list Q) : forall t, In (py_min t ts) (t :: ts).
Proof.
  induction ts as [|x ts IH]; intros t.
  - now left.
  - rewrite py_min_cons.
    destruct (IH (if Qltb x t then x else t)) as [H|H].
    + destruct (Qltb x t); rewrite <- H; [right; now left | now left].
    + right; now right.
Qed.

Lemma py_max_in (ts : list Q) : forall t, In (py_max t ts) (t :: ts).
Proof.
  induction ts as [|x ts IH]; intros t.
  - now left.
  - rewrite py_max_cons.
    destruct (IH (if Qltb t x then x else t)) as [H|H].
    + destruct (Qltb t x); rewrite <- H; [right; now left | now left].
    + right; now right.
Qed.

Lemma py_min_le_start (ts : list Q) : forall t, py_min t ts <= t.
Proof.
  induction ts as [|x ts IH]; intros t.
  - apply Qle_refl.
  - rewrite py_min_cons. destruct (Qltb x t) eqn:C.
    + eapply Qle_trans; [apply IH|]. apply Qlt_le_weak. now apply Qltb_true.
    + apply IH.
Qed.

Lemma py_max_ge_start (ts : list Q) : forall t, t <= py_max t ts.
Proof.
  induction ts as [|x ts IH]; intros t.
  - apply Qle_refl.
  - rewrite py_max_cons. destruct (Qltb t x) eqn:C.
    + eapply Qle_trans; [|apply IH]. apply Qlt_le_weak. now apply Qltb_true.
    + apply IH.
Qed.

Lemma py_min_lower (ts : list Q) :
  forall t x, In x (t :: ts) -> py_min t ts <= x.
Proof.
  induction ts as [|y ts IH]; intros t x Hx.
  - destruct Hx as [<-|[]]. apply Qle_refl.
  - rewrite py_min_cons. destruct Hx as [<-|[<-|Hx]].
    + eapply Qle_trans; [apply py_min_le_start|].
      destruct (Qltb y t) eqn:C.
      * apply Qlt_le_weak. now apply Qltb_true.
      * apply Qle_refl.
    + eapply Qle_trans; [apply py_min_le_start|].
      destruct (Qltb y t) eqn:C.
      * apply Qle_refl.
      * now apply Qltb_false.
    + apply IH. now right.
Qed.

Lemma py_max_upper (ts : list Q) :
  forall t x, In x (t :: ts) -> x <= py_max t ts.
Proof.
  induction ts as [|y ts IH]; intros t x Hx.
  - destruct Hx as [<-|[]]. apply Qle_refl.
  - rewrite py_max_cons. destruct Hx as [<-|[<-|Hx]].
    + eapply Qle_trans; [|apply py_max_ge_start].
      destruct (Qltb t y) eqn:C.
      * apply Qlt_le_weak. now apply Qltb_true.
      * apply Qle_refl.
    + eapply Qle_trans; [|apply py_max_ge_start].
      destruct (Qltb t y) eqn:C.
      * apply Qle_refl.
      * now apply Qltb_false.
    + apply IH. now right.
Qed.

End MinMax.

(** ** Temperature aggregation *)

(** C3: when some entries are dated today, [temp_now] is the temperature of
    the first of them and [temp_min], [temp_max] are the least and the
    greatest temperature among them; when none is and the forecast is not
    empty, the three are the temperature of the first entry of the whole
    forecast; and today's temperatures 20, 22, 19, wherever the entries of
    other days stand between them, give 20, 19, 22. *)
Theorem aggregate_spec (today_str : string) (data : list entry) :
  (forall e es,
      today_entries today_str data = e :: es ->
      exists mn mx,
        aggregate today_str data = inr (main_temp e, mn, mx) /\
        is_min_of mn (map main_temp (e :: es)) /\
        is_max_of mx (map main_temp (e :: es))) /\
  (forall e rest,
      today_entries today_str data = [] ->
      data = e :: rest ->
      aggregate today_str data = inr (main_temp e, main_temp e, main_temp e)) /\
  (map main_temp (today_entries today_str data) = [20%Q; 22%Q; 19%Q] ->
   aggregate today_str data = inr (20%Q, 19%Q, 22%Q)).
Proof.
  unfold aggregate, today_temps. fold (today_entries today_str data).
  repeat split.
  - intros e es ->. cbn [map].
    exists (py_min (main_temp e) (map main_temp es)),
           (py_max (main_temp e) (map main_temp es)).
    repeat split.
    + apply py_min_in.
    + apply py_min_lower.
    + apply py_max_in.
    + apply py_max_upper.
  - intros e rest -> ->. reflexivity.
  - intros ->. reflexivity.
Qed.

(** ** Schema provisioning *)

(** No run of the provisioning drops or changes a table that exists. *)
Lemma create_schema_keeps_tables (env : schema_env) (d : db) :
  (forall t, dim_city d = Some t ->
             dim_city (fst (create_schema env d)) = Some t) /\
  (forall t, dim_date d = Some t ->
             dim_date (fst (create_schema env d)) = Some t) /\
  (forall t, current_weather d = Some t ->
             current_weather (fst (create_schema env d)) = Some t) /\
  (forall t, historical_weather d = Some t ->
             historical_weather (fst (create_schema env d)) = Some t).
Proof.
  unfold create_schema. cbn [schema_tables run_ddl].
  unfold create_table_if_not_exists.
  destruct d as [[a|] [b|] [c|] [h|]];
    destruct (schema_connect env);
    destruct (create_priv env Tdim_city);
    destruct (create_priv env Tdim_date);
    destruct (create_priv env Tcurrent_weather);
    destruct (create_priv env Thistorical_weather);
    cbn; repeat split; congruence.
Qed.

(** C5: a second run of the schema provisioning in the same environment
    gives the same store and the same message as the first; after a run
    that succeeded, a further run in any environment without failure
    changes nothing and succeeds; and no run drops or changes a table that
    exists. *)
Theorem create_schema_idempotent (env : schema_env) (d : db) :
  create_schema env (fst (create_schema env d)) = create_schema env d /\
  (forall env',
      snd (create_schema env d) = [SchemaCreated] ->
      healthy env' = true ->
      create_schema env' (fst (create_schema env d))
      = (fst (create_schema env d), [SchemaCreated])) /\
  (forall t, dim_city d = Some t ->
             dim_city (fst (create_schema env d)) = Some t) /\
  (forall t, dim_date d = Some t ->
             dim_date (fst (create_schema env d)) = Some t) /\
  (forall t, current_weather d = Some t ->
             current_weather (fst (create_schema env d)) = Some t) /\
  (forall t, historical_weather d = Some t ->
             historical_weather (fst (create_schema env d)) = Some t).
Proof.
  unfold healthy, create_schema. cbn [forallb schema_tables run_ddl].
  unfold create_table_if_not_exists.
  destruct d as [[a|] [b|] [c|] [h|]];
    destruct (schema_connect env) eqn:E0;
    destruct (create_priv env Tdim_city) eqn:E1;
    destruct (create_priv env Tdim_date) eqn:E2;
    destruct (create_priv env Tcurrent_weather) eqn:E3;
    destruct (create_priv env Thistorical_weather) eqn:E4;
    cbn; rewrite ?E0, ?E1, ?E2, ?E3, ?E4; cbn;
    (repeat split; try congruence; try discriminate);
    intros env' _ H;
    repeat (apply andb_prop in H; destruct H as [? H]);
    repeat match goal with
           | E : ?x = true |- context [?x] => rewrite E
           end; reflexivity.
Qed.

(** ** City resolution *)

Lemma existsb_filter_length {A} (f : A -> bool) (l : list A) :
  existsb f l = true -> (1 <= List.length (filter f l))%nat.
Proof.
  induction l as [|x l IH]; cbn; [discriminate|].
  destruct (f x); cbn; [lia|exact IH].
Qed.

Lemma existsb_false_filter {A} (f : A -> bool) (l : list A) :
  existsb f l = false -> filter f l = [].
Proof.
  induction l as [|x l IH]; cbn; [reflexivity|].
  destruct (f x); cbn; [discriminate|exact IH].
Qed.

Lemma existsb_find {A} (f : A -> bool) (l : list A) :
  existsb f l = true -> exists x, find f l = Some x.
Proof.
  induction l as [|x l IH]; cbn; [discriminate|].
  destruct (f x); cbn; [now exists x|exact IH].
Qed.

Lemma find_app_last {A} (f : A -> bool) (l : list A) (x : A) :
  existsb f l = false -> f x = true -> find f (l ++ [x]) = Some x.
Proof.
  induction l as [|y l IH]; cbn; intros H Hx.
  - now rewrite Hx.
  - destruct (f y); [discriminate|now apply IH].
Qed.

(** What a resolution that met no failure does: the row is inserted when
    the name is new, everything is committed, the key of the (first) row
    of that name is returned. *)
Lemma get_or_create_city_runs (w : city_world) (city : string)
  (la lo : number) (c : conn) (t : table city_row) :
  dim_city (working c) = Some t ->
  city_stmts_quiet w ->
  exists cid d1,
    get_or_create_city w city la lo c
    = (inr cid, {| committed := d1; working := d1 |}) /\
    insert_ignore_city city la lo (working c) = inr (tt, d1) /\
    select_city_id city d1 = inr (Some cid, d1).
Proof.
  intros Ht (Q1 & Q2 & Q3).
  unfold get_or_create_city, bind, execute, commit.
  rewrite Q1, Q2, Q3. unfold insert_ignore_city. rewrite Ht.
  destruct (existsb _ (rows t)) eqn:Ex; cbn [working committed].
  - unfold select_city_id. cbn [dim_city set_dim_city rows].
    destruct (existsb_find _ _ Ex) as [r Hr]. rewrite Hr. cbn.
    eexists _, _. repeat split.
    cbn [dim_city set_dim_city rows]. now rewrite Hr.
  - unfold select_city_id. cbn [dim_city set_dim_city rows].
    rewrite find_app_last; [|exact Ex|cbn; apply String.eqb_refl].
    cbn. eexists _, _. repeat split.
    cbn [dim_city set_dim_city rows].
    rewrite find_app_last; [reflexivity|exact Ex|cbn; apply String.eqb_refl].
Qed.

Lemma get_or_create_city_inr (w : city_world) (city : string)
  (la lo : number) (c c1 : conn) (cid : Z) :
  get_or_create_city w city la lo c = (inr cid, c1) ->
  exists d1,
    c1 = {| committed := d1; working := d1 |} /\
    insert_ignore_city city la lo (working c) = inr (tt, d1) /\
    select_city_id city d1 = inr (Some cid, d1).
Proof.
  unfold get_or_create_city, bind, execute, commit, ret, raise.
  destruct (w_fault w InsertCity); [discriminate|].
  destruct (insert_ignore_city city la lo (working c)) as [e|[[] d1]] eqn:I;
    [discriminate|].
  destruct (w_fault w CommitCity); [discriminate|].
  destruct (w_fault w SelectCity); [discriminate|].
  cbn [working committed].
  destruct (select_city_id city d1) as [e|[[cid'|] d2]] eqn:S;
    try discriminate.
  intros H. injection H as <- <-.
  assert (d2 = d1) as ->.
  { unfold select_city_id in S. destruct (dim_city d1); [|discriminate].
    now injection S. }
  exists d1. repeat split. exact S.
Qed.

(** A second insert of the name writes no row. *)
Lemma insert_ignore_city_again (city : string) (la lo la' lo' : number)
  (d d1 : db) :
  insert_ignore_city city la lo d = inr (tt, d1) ->
  exists d2, insert_ignore_city city la' lo' d1 = inr (tt, d2) /\
             city_rows d2 = city_rows d1.
Proof.
  unfold insert_ignore_city, city_rows.
  destruct (dim_city d) as [t|] eqn:Ht; [|discriminate].
  destruct (existsb _ (rows t)) eqn:Ex; intros H; injection H as <-;
    cbn [dim_city set_dim_city rows].
  - rewrite Ex. eexists. split; reflexivity.
  - rewrite existsb_app. cbn [existsb name].
    rewrite String.eqb_refl, orb_true_r. eexists. split; reflexivity.
Qed.

Lemma insert_ignore_city_count (city : string) (la lo : number) (d d1 : db) :
  insert_ignore_city city la lo d = inr (tt, d1) ->
  count_named city d1 = Nat.max 1 (count_named city d) /\
  (List.length (city_rows d1) <= List.length (city_rows d) + 1)%nat.
Proof.
  unfold insert_ignore_city, count_named, city_rows.
  destruct (dim_city d) as [t|] eqn:Ht; [|discriminate].
  destruct (existsb _ (rows t)) eqn:Ex; intros H; injection H as <-.
  - cbn [dim_city set_dim_city rows].
    apply existsb_filter_length in Ex. split; lia.
  - cbn [dim_city set_dim_city rows]. rewrite filter_app, !length_app.
    rewrite (existsb_false_filter _ _ Ex). cbn.
    rewrite String.eqb_refl. cbn. split; lia.
Qed.

(** The insert into [dim_city] leaves the other tables untouched. *)
Lemma insert_ignore_city_frame city la lo d u d' :
  insert_ignore_city city la lo d = inr (u, d') ->
  dim_date d' = dim_date d /\ current_weather d' = current_weather d /\
  historical_weather d' = historical_weather d.
Proof.
  unfold insert_ignore_city. destruct (dim_city d); [|discriminate].
  destruct (existsb _ _); intros H; inversion H; subst; cbn; auto.
Qed.

(** For a name that the store answers, the insert writes no row and the
    store answers the same. *)
Lemma select_city_id_found city d cid la lo d' :
  select_city_id city d = inr (Some cid, d) ->
  insert_ignore_city city la lo d = inr (tt, d') ->
  city_rows d' = city_rows d /\
  select_city_id city d' = inr (Some cid, d').
Proof.
  unfold select_city_id, insert_ignore_city, city_rows.
  destruct (dim_city d) as [t|]; [|discriminate].
  destruct (find _ (rows t)) as [r|] eqn:F; [|discriminate].
  intros S. injection S as <-.
  assert (existsb (fun r => String.eqb (name r) city) (rows t) = true) as ->.
  { apply existsb_exists. exists r. exact (find_some _ _ F). }
  intros H. injection H as <-. cbn [dim_city set_dim_city rows].
  now rewrite F.
Qed.

(** C8: in every state of the store in which a first resolution of a name
    returns an id, a second resolution of that name (with whatever
    coordinates) returns the same id and raises nothing; it writes no row:
    the rows of [dim_city], in the working and in the committed image, are
    those the first left, and the other tables are untouched.  The first
    adds at most one row, and a name that had at most one row has exactly
    one after the first and after the second.  The first resolution does
    return whenever [dim_city] exists and the store does not fail. *)
Theorem get_or_create_city_idempotent (w1 w2 : city_world) (city : string)
  (la1 lo1 la2 lo2 : number) (c : conn) :
  (dim_city (working c) <> None -> city_stmts_quiet w1 ->
   exists cid c1, get_or_create_city w1 city la1 lo1 c = (inr cid, c1)) /\
  (forall cid c1,
      get_or_create_city w1 city la1 lo1 c = (inr cid, c1) ->
      city_stmts_quiet w2 ->
      (exists c2,
          get_or_create_city w2 city la2 lo2 c1 = (inr cid, c2) /\
          city_rows (working c2) = city_rows (working c1) /\
          city_rows (committed c2) = city_rows (committed c1) /\
          dim_date (working c2) = dim_date (working c1) /\
          current_weather (working c2) = current_weather (working c1) /\
          historical_weather (working c2)
          = historical_weather (working c1) /\
          count_named city (working c2) = count_named city (working c1)) /\
      (List.length (city_rows (working c1))
       <= List.length (city_rows (working c)) + 1)%nat /\
      count_named city (working c1)
      = Nat.max 1 (count_named city (working c)) /\
      ((count_named city (working c) <= 1)%nat ->
       count_named city (working c1) = 1%nat /\
       count_named city (committed c1) = 1%nat)).
Proof.
  split.
  - intros Ht Q. destruct (dim_city (working c)) as [t|] eqn:E;
      [|congruence].
    destruct (get_or_create_city_runs w1 city la1 lo1 c t E Q)
      as (cid & d1 & H & _).
    eauto.
  - intros cid c1 H1 Q2.
    destruct (get_or_create_city_inr _ _ _ _ _ _ _ H1) as (d1 & -> & I & S).
    destruct (insert_ignore_city_count _ _ _ _ _ I) as [Hc Hl].
    assert (exists t1, dim_city d1 = Some t1) as [t1 Ht1].
    { unfold select_city_id in S. destruct (dim_city d1); [eauto|discriminate]. }
    destruct (get_or_create_city_runs w2 city la2 lo2
                {| committed := d1; working := d1 |} t1 Ht1 Q2)
      as (cid' & d2 & H2 & I2 & S2).
    cbn [working committed] in *.
    destruct (select_city_id_found _ _ _ _ _ _ S I2) as [R2 S2'].
    rewrite S2' in S2. injection S2 as <-.
    destruct (insert_ignore_city_frame _ _ _ _ _ _ I2) as (F1 & F2 & F3).
    split; [|repeat split; auto; lia].
    exists {| committed := d2; working := d2 |}. cbn [working committed].
    repeat split; try assumption.
    unfold count_named. now rewrite R2.
Qed.

(** ** A small program logic for the pipeline *)

Lemma triple_ret {A} (P : conn -> Prop) (a : A) Q E :
  (forall c, P c -> Q a c) -> triple P (ret a) Q E.
Proof. intros H c Hc. now apply H. Qed.

Lemma triple_raise {A} (P : conn -> Prop) (e : exn)
  (Q : A -> conn -> Prop) E :
  (forall c, P c -> E e c) -> triple P (raise e) Q E.
Proof. intros H c Hc. now apply H. Qed.

Lemma triple_bind {A B} (P : conn -> Prop) (m : M A) (k : A -> M B)
  (R : A -> conn -> Prop) (Q : B -> conn -> Prop) E :
  triple P m R E ->
  (forall a, triple (R a) (k a) Q E) ->
  triple P (bind m k) Q E.
Proof.
  intros Hm Hk c Hc. unfold bind. specialize (Hm c Hc).
  destruct (m c) as [[e|a] c1]; [exact Hm|].
  now apply Hk.
Qed.

Lemma triple_lift {A} (P : conn -> Prop) (r : exn + A)
  (Q : A -> conn -> Prop) E :
  (forall e c, r = inl e -> P c -> E e c) ->
  (forall a c, r = inr a -> P c -> Q a c) ->
  triple P (lift r) Q E.
Proof.
  intros He Ha c Hc. destruct r as [e|a]; cbn.
  - now apply He.
  - now apply Ha.
Qed.

Lemma triple_execute {A} (P : conn -> Prop) (w : city_world) (k : stmt_id)
  (f : db -> exn + (A * db)) (Q : A -> conn -> Prop) E :
  (forall e c, w_fault w k = Some e -> P c -> E e c) ->
  (forall e c, f (working c) = inl e -> P c -> E e c) ->
  (forall a d c, w_fault w k = None -> f (working c) = inr (a, d) -> P c ->
                 Q a {| committed := committed c; working := d |}) ->
  triple P (execute w k f) Q E.
Proof.
  intros Hf He Ha c Hc. unfold execute.
  destruct (w_fault w k) as [e|] eqn:F; [now apply Hf|].
  destruct (f (working c)) as [e|[a d]] eqn:R.
  - now apply He.
  - now apply Ha.
Qed.

Lemma triple_commit (P : conn -> Prop) (w : city_world) (k : stmt_id)
  (Q : unit -> conn -> Prop) E :
  (forall e c, w_fault w k = Some e -> P c -> E e c) ->
  (forall c, w_fault w k = None -> P c ->
             Q tt {| committed := working c; working := working c |}) ->
  triple P (commit w k) Q E.
Proof.
  intros Hf Ha c Hc. unfold commit.
  destruct (w_fault w k) as [e|] eqn:F; [now apply Hf|now apply Ha].
Qed.

Lemma triple_weaken {A} (P P' : conn -> Prop) (m : M A)
  (Q Q' : A -> conn -> Prop) (E E' : exn -> conn -> Prop) :
  triple P' m Q' E' ->
  (forall c, P c -> P' c) ->
  (forall a c, Q' a c -> Q a c) ->
  (forall e c, E' e c -> E e c) ->
  triple P m Q E.
Proof.
  intros H HP HQ HE c Hc. specialize (H c (HP c Hc)).
  destruct (m c) as [[e|a] c1]; auto.
Qed.

(** ** Failure isolation *)

Lemma all_stmts_complete (k : stmt_id) : In k all_stmts.
Proof. destruct k; cbn; tauto. Qed.

Lemma exceptions_only_fault (w : city_world) (k : stmt_id) (e : exn) :
  exceptions_only w = true -> w_fault w k = Some e -> is_Exception e = true.
Proof.
  unfold exceptions_only. intros H F.
  apply andb_prop in H. destruct H as [_ H].
  rewrite forallb_forall in H. specialize (H k (all_stmts_complete k)).
  now rewrite F in H.
Qed.

Lemma insert_ignore_city_raises city la lo :
  raises_only_Exception (insert_ignore_city city la lo).
Proof.
  intros d e. unfold insert_ignore_city.
  destruct (dim_city d); [destruct (existsb _ _); discriminate|].
  intros H; injection H as <-; reflexivity.
Qed.

Lemma select_city_id_raises city :
  raises_only_Exception (select_city_id city).
Proof.
  intros d e. unfold select_city_id.
  destruct (dim_city d); [discriminate|].
  intros H; injection H as <-; reflexivity.
Qed.

Lemma select_date_id_raises fd :
  raises_only_Exception (select_date_id fd).
Proof.
  intros d e. unfold select_date_id.
  destruct (dim_date d); [discriminate|].
  intros H; injection H as <-; reflexivity.
Qed.

Lemma insert_date_raises now q :
  raises_only_Exception (insert_date now q).
Proof.
  intros d e. unfold insert_date.
  destruct (dim_date d); [destruct (existsb _ _)|];
    intros H; try discriminate; injection H as <-; reflexivity.
Qed.

Lemma upsert_current_raises cid rd srv :
  raises_only_Exception (upsert_current cid rd srv).
Proof.
  intros d e. unfold upsert_current.
  destruct (current_weather d);
    [destruct (negb _); [|destruct (existsb _ _)]|];
    intros H; try discriminate; injection H as <-; reflexivity.
Qed.

Lemma insert_history_raises cid did tm rd :
  raises_only_Exception (insert_history cid did tm rd).
Proof.
  intros d e. unfold insert_history.
  destruct (historical_weather d); [destruct (_ || _)|];
    intros H; try discriminate; injection H as <-; reflexivity.
Qed.

Lemma build_reading_raises today data e :
  build_reading today data = inl e -> is_Exception e = true.
Proof.
  unfold build_reading, aggregate, current_conditions.
  destruct (today_temps today data); destruct data as [|x data];
    try destruct (weather x); intros H; try discriminate;
    injection H as <-; reflexivity.
Qed.

Ltac raises_step :=
  first
    [ apply triple_ret; intros; exact I
    | apply triple_raise; intros; reflexivity
    | apply triple_commit;
      [ intros; eapply exceptions_only_fault; eassumption
      | intros; exact I ]
    | apply triple_execute;
      [ intros; eapply exceptions_only_fault; eassumption
      | intros ? ? R _;
        first [ exact (insert_ignore_city_raises _ _ _ _ _ R)
              | exact (select_city_id_raises _ _ _ R)
              | exact (select_date_id_raises _ _ _ R)
              | exact (insert_date_raises _ _ _ _ R)
              | exact (upsert_current_raises _ _ _ _ _ R)
              | exact (insert_history_raises _ _ _ _ _ _ R) ]
      | intros; exact I ] ].

Lemma process_city_raises (w : city_world) (city : string) :
  exceptions_only w = true ->
  triple (fun _ => True) (process_city w city) (fun _ _ => True)
    Exception_raised.
Proof.
  intros X. unfold Exception_raised.
  assert (G : raises_Exception (w_geocode w) = true
              /\ raises_Exception (w_forecast w) = true).
  { unfold exceptions_only in X. apply andb_prop in X. destruct X as [X _].
    now apply andb_prop in X. }
  destruct G as [G1 G2].
  unfold process_city.
  eapply triple_bind with (R := fun _ _ => True).
  { apply triple_lift; [|intros; exact I].
    intros e c. unfold get_city_coordinates.
    destruct (w_geocode w) as [e'|[|p l]]; cbn in G1; intros H _;
      try discriminate; injection H as <-; [exact G1|reflexivity]. }
  intros [la lo].
  eapply triple_bind with (R := fun _ _ => True).
  { unfold get_or_create_city.
    eapply triple_bind with (R := fun _ _ => True); [raises_step|intros _].
    eapply triple_bind with (R := fun _ _ => True); [raises_step|intros _].
    eapply triple_bind with (R := fun _ _ => True); [raises_step|].
    intros [cid|]; raises_step. }
  intros cid.
  eapply triple_bind with (R := fun _ _ => True).
  { unfold get_or_create_date.
    eapply triple_bind with (R := fun _ _ => True); [raises_step|].
    intros [did|]; [raises_step|].
    eapply triple_bind with (R := fun _ _ => True); [raises_step|intros did].
    eapply triple_bind with (R := fun _ _ => True); [raises_step|intros _].
    raises_step. }
  intros did.
  eapply triple_bind with (R := fun _ _ => True).
  { apply triple_lift; [|intros; exact I].
    intros e c H _. rewrite H in G2. exact G2. }
  intros data.
  eapply triple_bind with (R := fun _ _ => True).
  { apply triple_lift; [|intros; exact I].
    intros e c H _. exact (build_reading_raises _ _ _ H). }
  intros rd.
  eapply triple_bind with (R := fun _ _ => True); [raises_step|intros _].
  eapply triple_bind with (R := fun _ _ => True); [raises_step|intros _].
  eapply triple_bind with (R := fun _ _ => True); [raises_step|intros _].
  raises_step.
Qed.

Lemma isolate_each_cities ws cs : forall i c,
  map entry_city (fst (isolate_each ws i cs c)) = cs.
Proof.
  induction cs as [|city rest IH]; intros i c; cbn; [reflexivity|].
  rewrite IH. f_equal. unfold one_city.
  now destruct (process_city (ws i) city c) as [[e|t] c'].
Qed.

Lemma isolate_each_app ws pre post : forall i c,
  isolate_each ws i (pre ++ post) c
  = ((fst (isolate_each ws i pre c)
        ++ fst (isolate_each ws (i + List.length pre) post
                  (snd (isolate_each ws i pre c))))%list,
     snd (isolate_each ws (i + List.length pre) post
            (snd (isolate_each ws i pre c)))).
Proof.
  induction pre as [|city pre IH]; intros i c; cbn.
  - rewrite Nat.add_0_r. now destruct (isolate_each ws i post c).
  - rewrite IH. cbn. now rewrite Nat.add_succ_r.
Qed.

Lemma collect_loop_isolates ws cs :
  (forall i, exceptions_only (ws i) = true) ->
  forall i res c,
    collect_loop ws i cs res c
    = (None, (res ++ fst (isolate_each ws i cs c))%list,
       snd (isolate_each ws i cs c)).
Proof.
  intros X. induction cs as [|city rest IH]; intros i res c; cbn.
  - now rewrite app_nil_r.
  - unfold one_city.
    pose proof (process_city_raises (ws i) city (X i) c I) as R.
    destruct (process_city (ws i) city c) as [[e|t] c'].
    + unfold Exception_raised in R. rewrite R, IH. cbn.
      now rewrite <- app_assoc.
    + rewrite IH. cbn. now rewrite <- app_assoc.
Qed.

(** C2: when what is raised for the cities derives from [Exception], the
    batch returns a report that has one entry per city of the input, in
    the order of the input; the entry of a city is a failure entry exactly
    when its pipeline raised; and whatever the outcome for a city, the
    cities after it are processed, each from the connection its
    predecessor left. *)
Theorem failures_are_isolated (ws : nat -> city_world) (cs : list string)
  (d : db) :
  (forall i, exceptions_only (ws i) = true) ->
  let r := collect_weather true ws cs d in
  ended r = Returned /\
  printed r = ReportHeader :: map report_line (processed r) /\
  map entry_city (processed r) = cs /\
  List.length (processed r) = List.length cs /\
  forall pre city post,
    cs = (pre ++ city :: post)%list ->
    let c1 := snd (isolate_each ws 0 pre (connect d)) in
    let n := List.length pre in
    let c2 := snd (process_city (ws n) city c1) in
    let later := isolate_each ws (S n) post c2 in
    processed r
    = (fst (isolate_each ws 0 pre (connect d))
         ++ fst (one_city ws n city c1) :: fst later)%list /\
    (is_failure (fst (one_city ws n city c1)) = true <->
     exists e, fst (process_city (ws n) city c1) = inl e) /\
    final_db r = committed (snd later).
Proof.
  intros X. unfold collect_weather. cbn [negb].
  rewrite (collect_loop_isolates ws cs X). cbn.
  repeat split.
  - apply isolate_each_cities.
  - rewrite <- (isolate_each_cities ws cs 0 (connect d)) at 2.
    now rewrite length_map.
  - subst cs. rewrite isolate_each_app. cbn.
    unfold one_city.
    now destruct (process_city (ws (List.length pre)) city _) as [[e|t] c'].
  - unfold one_city.
    destruct (process_city (ws (List.length pre)) city _) as [[e|t] c'];
      cbn; [eauto|discriminate].
  - unfold one_city.
    destruct (process_city (ws (List.length pre)) city _) as [[e|t] c'];
      cbn; [reflexivity|]. intros [e He]. discriminate.
  - subst cs. rewrite isolate_each_app. cbn. unfold one_city.
    now destruct (process_city (ws (List.length pre)) city _) as [[e|t] c'].
Qed.

(** ** What a successful pipeline did *)

Lemma bind_inr {A B} (m : M A) (k : A -> M B) (c c' : conn) (b : B) :
  bind m k c = (inr b, c') ->
  exists a c1, m c = (inr a, c1) /\ k a c1 = (inr b, c').
Proof.
  unfold bind. destruct (m c) as [[e|a] c1]; [discriminate|]. eauto.
Qed.

Lemma lift_inr {A} (r : exn + A) (c c' : conn) (a : A) :
  lift r c = (inr a, c') -> r = inr a /\ c' = c.
Proof.
  destruct r as [e|a0]; cbn; [discriminate|].
  intros H. now injection H as <- <-.
Qed.

Lemma execute_inr {A} (w : city_world) (k : stmt_id)
  (f : db -> exn + (A * db)) (c c' : conn) (a : A) :
  execute w k f c = (inr a, c') ->
  exists d, w_fault w k = None /\ f (working c) = inr (a, d) /\
            c' = {| committed := committed c; working := d |}.
Proof.
  unfold execute. destruct (w_fault w k); [discriminate|].
  destruct (f (working c)) as [e|[a0 d]]; [discriminate|].
  intros H. injection H as <- <-. eauto.
Qed.

Lemma commit_inr (w : city_world) (k : stmt_id) (c c' : conn) (u : unit) :
  commit w k c = (inr u, c') ->
  w_fault w k = None /\
  c' = {| committed := working c; working := working c |}.
Proof.
  unfold commit. destruct (w_fault w k); [discriminate|].
  intros H. now injection H as <- <-.
Qed.

Lemma select_date_id_db fd d r d' :
  select_date_id fd d = inr (r, d') -> d' = d.
Proof.
  unfold select_date_id. destruct (dim_date d); [|discriminate].
  intros H. now injection H.
Qed.

Lemma get_or_create_date_inr (w : city_world) (now : datetime) (d : db)
  (did : Z) (c' : conn) :
  get_or_create_date w now {| committed := d; working := d |} = (inr did, c') ->
  exists d', c' = {| committed := d'; working := d' |} /\
             date_resolved now d did d'.
Proof.
  unfold get_or_create_date. intros H.
  apply bind_inr in H. destruct H as (row & c1 & H1 & H).
  apply execute_inr in H1. destruct H1 as (d1 & _ & S & ->).
  cbn [working committed] in *.
  pose proof (select_date_id_db _ _ _ _ S) as ->.
  destruct row as [did'|].
  - injection H as <- <-. exists d. split; [reflexivity|]. now left.
  - apply bind_inr in H. destruct H as (did' & c2 & H2 & H).
    apply execute_inr in H2. destruct H2 as (d2 & _ & Ins & ->).
    apply bind_inr in H. destruct H as (u & c3 & H3 & H).
    apply commit_inr in H3. destruct H3 as (_ & ->).
    injection H as <- <-. cbn [working committed] in *.
    exists d2. split; [reflexivity|]. right. now split.
Qed.

Lemma process_city_inr (w : city_world) (city : string) (c c' : conn)
  (t : number) :
  process_city w city c = (inr t, c') ->
  exists tr,
    succeeded w city c tr /\
    c' = {| committed := tr_db_final tr; working := tr_db_final tr |} /\
    t = temp_now (tr_reading tr).
Proof.
  unfold process_city. intros H.
  apply bind_inr in H. destruct H as ([la lo] & c0 & H0 & H).
  apply lift_inr in H0. destruct H0 as [G ->].
  apply bind_inr in H. destruct H as (cid & c1 & H1 & H).
  apply get_or_create_city_inr in H1. destruct H1 as (d1 & -> & I1 & S1).
  apply bind_inr in H. destruct H as (did & c2 & H2 & H).
  apply get_or_create_date_inr in H2. destruct H2 as (d2 & -> & D2).
  apply bind_inr in H. destruct H as (data & c3 & H3 & H).
  apply lift_inr in H3. destruct H3 as [F ->].
  apply bind_inr in H. destruct H as (rd & c4 & H4 & H).
  apply lift_inr in H4. destruct H4 as [B ->].
  apply bind_inr in H. destruct H as ([] & c5 & H5 & H).
  apply execute_inr in H5. destruct H5 as (d3 & _ & U & ->).
  apply bind_inr in H. destruct H as ([] & c6 & H6 & H).
  apply execute_inr in H6. destruct H6 as (d4 & _ & IH & ->).
  apply bind_inr in H. destruct H as ([] & c7 & H7 & H).
  apply commit_inr in H7. destruct H7 as (_ & ->).
  injection H as <- <-. cbn [working committed] in *.
  exists {| tr_lat := la; tr_lon := lo; tr_city_id := cid;
            tr_date_id := did; tr_data := data; tr_reading := rd;
            tr_db_city := d1; tr_db_date := d2; tr_db_current := d3;
            tr_db_final := d4 |}.
  unfold succeeded. cbn. repeat split; assumption.
Qed.

(** ** What each statement leaves untouched *)

Lemma insert_date_frame now q d did d' :
  insert_date now q d = inr (did, d') ->
  dim_city d' = dim_city d /\ current_weather d' = current_weather d /\
  historical_weather d' = historical_weather d.
Proof.
  unfold insert_date. destruct (dim_date d); [|discriminate].
  destruct (existsb _ _); [discriminate|].
  intros H; inversion H; subst; cbn; auto.
Qed.

Lemma date_resolved_frame now d did d' :
  date_resolved now d did d' ->
  dim_city d' = dim_city d /\ current_weather d' = current_weather d /\
  historical_weather d' = historical_weather d.
Proof.
  intros [[_ ->]|[_ H]]; [auto|]. exact (insert_date_frame _ _ _ _ _ H).
Qed.

Lemma upsert_current_frame cid rd srv d u d' :
  upsert_current cid rd srv d = inr (u, d') ->
  dim_city d' = dim_city d /\ dim_date d' = dim_date d /\
  historical_weather d' = historical_weather d.
Proof.
  unfold upsert_current. destruct (current_weather d); [|discriminate].
  destruct (negb _); [discriminate|].
  destruct (existsb _ _); intros H; inversion H; subst; cbn; auto.
Qed.

Lemma insert_history_frame cid did tm rd d u d' :
  insert_history cid did tm rd d = inr (u, d') ->
  dim_city d' = dim_city d /\ dim_date d' = dim_date d /\
  current_weather d' = current_weather d.
Proof.
  unfold insert_history. destruct (historical_weather d); [|discriminate].
  destruct (_ || _); [discriminate|].
  intros H; inversion H; subst; cbn; auto.
Qed.

Lemma select_city_id_same_table city d d' r :
  dim_city d' = dim_city d ->
  select_city_id city d = inr (r, d) ->
  select_city_id city d' = inr (r, d').
Proof.
  unfold select_city_id. intros ->. destruct (dim_city d); [|discriminate].
  intros H. injection H as <-. reflexivity.
Qed.

Lemma select_city_id_db city d r d' :
  select_city_id city d = inr (r, d') -> d' = d.
Proof.
  unfold select_city_id. destruct (dim_city d); [|discriminate].
  intros H. now injection H.
Qed.

Lemma conn_eta (c : conn) :
  {| committed := committed c; working := working c |} = c.
Proof. now destruct c. Qed.

(** ** Invariants of the pipeline *)

Section Preservation.

Variable I : conn -> Prop.
Variable w : city_world.
Variable city : string.

Hypothesis I_commit : commit_keeps I.
Hypothesis I_insert_city :
  forall la lo, keeps I (insert_ignore_city city la lo).
Hypothesis I_insert_date : forall now q, keeps I (insert_date now q).
Hypothesis I_upsert :
  forall cid rd srv c d,
    I c ->
    select_city_id city (working c) = inr (Some cid, working c) ->
    upsert_current cid rd srv (working c) = inr (tt, d) ->
    I {| committed := committed c; working := d |}.
Hypothesis I_insert_history :
  forall cid did tm rd, keeps I (insert_history cid did tm rd).

Lemma get_or_create_city_keeps (la lo : number) :
  triple I (get_or_create_city w city la lo) (resolved_as I city) (fun _ => I).
Proof.
  unfold get_or_create_city.
  eapply triple_bind with (R := fun _ => I).
  { apply triple_execute; auto.
    intros a d c _ H Hc. exact (I_insert_city la lo c a d Hc H). }
  intros _.
  eapply triple_bind with (R := fun _ => I).
  { apply triple_commit; auto. }
  intros _.
  eapply triple_bind
    with (R := fun row c =>
                 I c /\ select_city_id city (working c) = inr (row, working c)).
  { apply triple_execute; auto.
    intros a d c _ H Hc.
    pose proof (select_city_id_db _ _ _ _ H) as ->.
    rewrite conn_eta. now split. }
  intros [cid|].
  - apply triple_ret. auto.
  - apply triple_raise. now intros c [Hc _].
Qed.

Lemma get_or_create_date_keeps (now : datetime) (cid : Z) :
  triple (resolved_as I city cid) (get_or_create_date w now)
    (fun _ => resolved_as I city cid) (fun _ => I).
Proof.
  unfold get_or_create_date.
  eapply triple_bind with (R := fun _ => resolved_as I city cid).
  { apply triple_execute; unfold resolved_as; try tauto.
    intros a d c _ H Hc.
    pose proof (select_date_id_db _ _ _ _ H) as ->.
    now rewrite conn_eta. }
  intros [did|].
  { apply triple_ret. auto. }
  eapply triple_bind with (R := fun _ => resolved_as I city cid).
  { apply triple_execute; unfold resolved_as; try tauto.
    intros a d c _ H [Hc S]. cbn [working]. split.
    - exact (I_insert_date _ _ c a d Hc H).
    - apply (select_city_id_same_table city (working c)); [|exact S].
      now destruct (insert_date_frame _ _ _ _ _ H). }
  intros did.
  eapply triple_bind with (R := fun _ => resolved_as I city cid).
  { apply triple_commit; unfold resolved_as; try tauto.
    intros c _ [Hc S]. cbn [working]. split; [now apply I_commit|exact S]. }
  intros _. apply triple_ret. auto.
Qed.

(** Every outcome of the pipeline of a city keeps the invariant. *)
Lemma process_city_keeps :
  triple I (process_city w city) (fun _ => I) (fun _ => I).
Proof.
  unfold process_city.
  eapply triple_bind with (R := fun _ => I).
  { apply triple_lift; auto. }
  intros [la lo].
  eapply triple_bind; [apply get_or_create_city_keeps|].
  intros cid.
  eapply triple_bind; [apply get_or_create_date_keeps|].
  intros did.
  eapply triple_bind with (R := fun _ => resolved_as I city cid).
  { apply triple_lift; unfold resolved_as; tauto. }
  intros data.
  eapply triple_bind with (R := fun _ => resolved_as I city cid).
  { apply triple_lift; unfold resolved_as; tauto. }
  intros rd.
  eapply triple_bind with (R := fun _ => I).
  { apply triple_execute; unfold resolved_as; try tauto.
    intros [] d c _ H [Hc S]. exact (I_upsert _ _ _ c d Hc S H). }
  intros _.
  eapply triple_bind with (R := fun _ => I).
  { apply triple_execute; auto.
    intros a d c _ H Hc. exact (I_insert_history _ _ _ _ c a d Hc H). }
  intros _.
  eapply triple_bind with (R := fun _ => I).
  { apply triple_commit; auto. }
  intros _. apply triple_ret. auto.
Qed.

End Preservation.

(** An invariant of every pipeline of the cities of [cs] is an invariant of
    the loop over [cs], however the loop ends. *)
Lemma collect_loop_keeps (I : conn -> Prop) (ws : nat -> city_world)
  (cs : list string) :
  (forall i city, In city cs ->
                  triple I (process_city (ws i) city) (fun _ => I)
                    (fun _ => I)) ->
  forall i res c, I c -> I (snd (collect_loop ws i cs res c)).
Proof.
  induction cs as [|city rest IH]; intros H i res c Hc; cbn; [exact Hc|].
  pose proof (H i city (or_introl eq_refl) c Hc) as P.
  destruct (process_city (ws i) city c) as [[e|t] c'].
  - destruct (is_Exception e); [|exact P].
    apply IH; [|exact P]. intros j x Hx. apply H. now right.
  - apply IH; [|exact P]. intros j x Hx. apply H. now right.
Qed.

(** ** The store only grows *)

Lemma prefix_of_refl {A} (l : list A) : prefix_of l l.
Proof. exists []. now rewrite app_nil_r. Qed.

Lemma prefix_of_trans {A} (l1 l2 l3 : list A) :
  prefix_of l1 l2 -> prefix_of l2 l3 -> prefix_of l1 l3.
Proof.
  intros [k1 ->] [k2 ->]. exists (k1 ++ k2)%list. now rewrite app_assoc.
Qed.

Lemma prefix_of_app {A} (l k : list A) : prefix_of l (l ++ k).
Proof. now exists k. Qed.

Lemma prefix_of_in {A} (l l' : list A) (x : A) :
  prefix_of l l' -> In x l -> In x l'.
Proof. intros [k ->] H. apply in_or_app. now left. Qed.

Lemma grows_refl (d : db) : grows d d.
Proof. split; apply prefix_of_refl. Qed.

Lemma grows_trans (d1 d2 d3 : db) : grows d1 d2 -> grows d2 d3 -> grows d1 d3.
Proof.
  intros [a b c e] [a' b' c' e'].
  split; eapply prefix_of_trans; eassumption.
Qed.

Lemma insert_ignore_city_grows city la lo d u d' :
  insert_ignore_city city la lo d = inr (u, d') -> grows d d'.
Proof.
  unfold insert_ignore_city. destruct (dim_city d) as [t|] eqn:T;
    [|discriminate].
  destruct (existsb _ _); intros H; inversion H; subst.
  - split; unfold city_rows, date_rows, current_keys, current_rows,
      history_rows; cbn; rewrite ?T; apply prefix_of_refl.
  - split; unfold city_rows, date_rows, current_keys, current_rows,
      history_rows; cbn; rewrite ?T;
      first [apply prefix_of_app | apply prefix_of_refl].
Qed.

Lemma insert_date_grows now q d did d' :
  insert_date now q d = inr (did, d') -> grows d d'.
Proof.
  unfold insert_date. destruct (dim_date d) as [t|] eqn:T; [|discriminate].
  destruct (existsb _ _); [discriminate|].
  intros H; inversion H; subst.
  split; unfold city_rows, date_rows, current_keys, current_rows,
    history_rows; cbn; rewrite ?T;
    first [apply prefix_of_app | apply prefix_of_refl].
Qed.

Lemma map_replace_keys (cid : Z) (r : current_row) (t : list current_row) :
  cw_city_id r = cid ->
  map cw_city_id (map (fun x => if cw_city_id x =? cid then r else x) t)
  = map cw_city_id t.
Proof.
  intros Hr. induction t as [|x t IH]; cbn; [reflexivity|].
  rewrite IH. f_equal.
  destruct (cw_city_id x =? cid) eqn:E; [|reflexivity].
  apply Z.eqb_eq in E. congruence.
Qed.

(** The keys of the current table after an upsert: unchanged when the key
    was there, one more key at the end when it was not. *)
Lemma upsert_current_keys cid rd srv d u d' :
  upsert_current cid rd srv d = inr (u, d') ->
  (In cid (current_keys d) /\ current_keys d' = current_keys d) \/
  (~ In cid (current_keys d) /\
   current_keys d' = (current_keys d ++ [cid])%list).
Proof.
  unfold upsert_current, current_keys, current_rows.
  destruct (current_weather d) as [t|] eqn:T; [|discriminate].
  destruct (negb _); [discriminate|].
  destruct (existsb _ t) eqn:Ex; intros H; inversion H; subst; cbn.
  - left. split.
    + apply existsb_exists in Ex. destruct Ex as (x & Hx & E).
      apply Z.eqb_eq in E. subst cid. now apply in_map.
    + now apply map_replace_keys.
  - right. split.
    + intros Hin. apply in_map_iff in Hin. destruct Hin as (x & E & Hx).
      assert (existsb (fun x => cw_city_id x =? cid) t = true) as C.
      { apply existsb_exists. exists x. split; [exact Hx|].
        now apply Z.eqb_eq. }
      congruence.
    + now rewrite map_app.
Qed.

Lemma upsert_current_grows cid rd srv d u d' :
  upsert_current cid rd srv d = inr (u, d') -> grows d d'.
Proof.
  intros H.
  destruct (upsert_current_frame _ _ _ _ _ _ H) as (F1 & F2 & F3).
  split; unfold city_rows, date_rows, history_rows; rewrite ?F1, ?F2, ?F3;
    try apply prefix_of_refl.
  destruct (upsert_current_keys _ _ _ _ _ _ H) as [[_ ->]|[_ ->]].
  - apply prefix_of_refl.
  - apply prefix_of_app.
Qed.

(** The history after an insert: the old rows and one more. *)
Lemma insert_history_rows cid did tm rd d u d' :
  insert_history cid did tm rd d = inr (u, d') ->
  exists hid,
    history_rows d'
    = (history_rows d
         ++ [{| history_id := hid; hw_city_id := cid; hw_date_id := did;
                time_measured := tm; hw_reading := rd |}])%list.
Proof.
  unfold insert_history, history_rows.
  destruct (historical_weather d) as [t|]; [|discriminate].
  destruct (_ || _); [discriminate|].
  intros H; inversion H; subst; cbn. eauto.
Qed.

Lemma insert_history_grows cid did tm rd d u d' :
  insert_history cid did tm rd d = inr (u, d') -> grows d d'.
Proof.
  intros H.
  destruct (insert_history_frame _ _ _ _ _ _ _ H) as (F1 & F2 & F3).
  split; unfold city_rows, date_rows, current_keys, current_rows;
    rewrite ?F1, ?F2, ?F3; try apply prefix_of_refl.
  destruct (insert_history_rows _ _ _ _ _ _ _ H) as [hid ->].
  apply prefix_of_app.
Qed.

Lemma growing_keeps {A} (d0 d1 : db) (f : db -> exn + (A * db)) :
  (forall d a d', f d = inr (a, d') -> grows d d') ->
  keeps (growing d0 d1) f.
Proof.
  intros Hf c a d (G0 & G1 & G2) H. specialize (Hf _ _ _ H).
  split; [|split]; cbn; auto; eapply grows_trans; eassumption.
Qed.

Lemma process_city_growing (d0 d1 : db) (w : city_world) (city : string) :
  triple (growing d0 d1) (process_city w city)
    (fun _ => growing d0 d1) (fun _ => growing d0 d1).
Proof.
  apply process_city_keeps.
  - intros c (G0 & G1 & G2). split; [|split]; cbn.
    + eapply grows_trans; eassumption.
    + apply grows_refl.
    + exact G2.
  - intros la lo. apply growing_keeps. intros d [] d'.
    apply insert_ignore_city_grows.
  - intros now q. apply growing_keeps. apply insert_date_grows.
  - intros cid rd srv c d Hc _ H.
    refine (growing_keeps d0 d1 (upsert_current cid rd srv) _ c tt d Hc H).
    intros x [] x'. apply upsert_current_grows.
  - intros cid did tm rd. apply growing_keeps. intros d [] d'.
    apply insert_history_grows.
Qed.

Lemma connect_growing (d : db) : growing d d (connect d).
Proof. split; [|split]; apply grows_refl. Qed.

Lemma collect_loop_growing (d0 d1 : db) ws cs i res c :
  growing d0 d1 c -> growing d0 d1 (snd (collect_loop ws i cs res c)).
Proof.
  apply collect_loop_keeps. intros j city _. apply process_city_growing.
Qed.

(** ** The primary key of the current table *)

Lemma existsb_eqb_in (x : Z) (l : list Z) :
  existsb (Z.eqb x) l = true <-> In x l.
Proof.
  rewrite existsb_exists. split.
  - intros (y & Hy & E). apply Z.eqb_eq in E. now subst.
  - intros H. exists x. split; [exact H|apply Z.eqb_refl].
Qed.

Lemma distinct_app_new (l : list Z) (x : Z) :
  distinct l = true -> ~ In x l -> distinct (l ++ [x]) = true.
Proof.
  induction l as [|y l IH]; cbn; [reflexivity|].
  intros H N. apply andb_prop in H. destruct H as [H1 H2].
  apply andb_true_intro. split.
  - apply negb_true_iff. apply negb_true_iff in H1.
    rewrite existsb_app, H1. cbn. rewrite orb_false_r.
    apply Z.eqb_neq. intros ->. apply N. now left.
  - apply IH; [exact H2|]. intros Hx. apply N. now right.
Qed.

Lemma distinct_count_one (l k : list Z) (x : Z) :
  distinct (l ++ k) = true -> In x l ->
  List.length (filter (fun y => y =? x) (l ++ k)) = 1%nat.
Proof.
  induction l as [|y l IH]; cbn; [tauto|].
  intros H Hx. apply andb_prop in H. destruct H as [H1 H2].
  apply negb_true_iff in H1.
  destruct (y =? x) eqn:E.
  - apply Z.eqb_eq in E. subst y. cbn. f_equal.
    rewrite existsb_false_filter; [reflexivity|].
    rewrite <- H1. clear.
    induction (l ++ k)%list as [|z m IHm]; cbn; [reflexivity|].
    now rewrite IHm, (Z.eqb_sym z x).
  - destruct Hx as [->|Hx]; [now rewrite Z.eqb_refl in E|].
    now apply IH.
Qed.

Lemma rows_for_length (cid : Z) (d : db) :
  List.length (rows_for cid d)
  = List.length (filter (fun y => y =? cid) (current_keys d)).
Proof.
  unfold rows_for, current_keys.
  induction (current_rows d) as [|x t IH]; cbn; [reflexivity|].
  destruct (cw_city_id x =? cid); cbn; now rewrite IH.
Qed.

(** A key that is in the table stays there exactly once while the table
    grows under its primary key. *)
Lemma one_row_stays (cid : Z) (d d' : db) :
  grows d d' -> pk_ok d' = true -> In cid (current_keys d) ->
  List.length (rows_for cid d') = 1%nat.
Proof.
  intros [_ _ [k E] _] P Hin. rewrite rows_for_length.
  unfold pk_ok in P. rewrite E in *. now apply distinct_count_one.
Qed.

Lemma existsb_replace (cid : Z) (r : current_row) (t : list current_row) :
  cw_city_id r = cid ->
  existsb (fun x => cw_city_id x =? cid)
    (map (fun x => if cw_city_id x =? cid then r else x) t)
  = existsb (Z.eqb cid) (map cw_city_id t).
Proof.
  intros Hr. induction t as [|y t IH]; cbn; [reflexivity|].
  rewrite IH, (Z.eqb_sym cid).
  destruct (cw_city_id y =? cid) eqn:E; [|now rewrite E].
  now rewrite Hr, Z.eqb_refl.
Qed.

Lemma filter_replace (cid : Z) (r : current_row) (t : list current_row) :
  cw_city_id r = cid ->
  distinct (map cw_city_id t) = true ->
  existsb (fun x => cw_city_id x =? cid) t = true ->
  filter (fun x => cw_city_id x =? cid)
    (map (fun x => if cw_city_id x =? cid then r else x) t) = [r].
Proof.
  intros Hr. induction t as [|x t IH]; cbn; [discriminate|].
  intros D Ex. apply andb_prop in D. destruct D as [D1 D2].
  apply negb_true_iff in D1.
  destruct (cw_city_id x =? cid) eqn:E.
  - rewrite Hr, Z.eqb_refl. f_equal.
    apply Z.eqb_eq in E. rewrite E in D1.
    apply existsb_false_filter.
    now rewrite existsb_replace.
  - rewrite E. cbn in Ex. now apply IH.
Qed.

(** After an upsert under the primary key, the city has exactly the row
    that was written, and the primary key still holds. *)
Lemma upsert_current_one_row cid rd srv d u d' :
  pk_ok d = true ->
  upsert_current cid rd srv d = inr (u, d') ->
  rows_for cid d'
  = [{| cw_city_id := cid; cw_reading := rd; last_updated := srv |}] /\
  pk_ok d' = true.
Proof.
  intros P H. split.
  - revert P H. unfold pk_ok, upsert_current, rows_for, current_keys,
      current_rows.
    destruct (current_weather d) as [t|]; [|discriminate].
    destruct (negb _); [discriminate|].
    destruct (existsb _ t) eqn:Ex; intros P H; inversion H; subst; cbn.
    + now apply filter_replace.
    + rewrite filter_app, (existsb_false_filter _ _ Ex). cbn.
      now rewrite Z.eqb_refl.
  - unfold pk_ok in *.
    destruct (upsert_current_keys _ _ _ _ _ _ H) as [[_ ->]|[N ->]];
      [exact P|now apply distinct_app_new].
Qed.

Lemma pk_ok_same_table (d d' : db) :
  current_weather d' = current_weather d -> pk_ok d' = pk_ok d.
Proof.
  unfold pk_ok, current_keys, current_rows. now intros ->.
Qed.

Lemma process_city_pk (w : city_world) (city : string) :
  triple pk_holds (process_city w city) (fun _ => pk_holds)
    (fun _ => pk_holds).
Proof.
  apply process_city_keeps; unfold keeps, commit_keeps, pk_holds; cbn.
  - tauto.
  - intros la lo c a d [P1 P2] H. split; [exact P1|].
    destruct (insert_ignore_city_frame _ _ _ _ _ _ H) as (_ & F & _).
    now rewrite (pk_ok_same_table _ _ F).
  - intros now q c a d [P1 P2] H. split; [exact P1|].
    destruct (insert_date_frame _ _ _ _ _ H) as (_ & F & _).
    now rewrite (pk_ok_same_table _ _ F).
  - intros cid rd srv c d [P1 P2] _ H. split; [exact P1|].
    now destruct (upsert_current_one_row _ _ _ _ _ _ P2 H).
  - intros cid did tm rd c a d [P1 P2] H. split; [exact P1|].
    destruct (insert_history_frame _ _ _ _ _ _ _ H) as (_ & _ & F).
    now rewrite (pk_ok_same_table _ _ F).
Qed.

(** ** The effects of a successful pipeline *)

Lemma upsert_current_in cid rd srv d u d' :
  upsert_current cid rd srv d = inr (u, d') ->
  In {| cw_city_id := cid; cw_reading := rd; last_updated := srv |}
    (current_rows d').
Proof.
  unfold upsert_current, current_rows.
  destruct (current_weather d) as [t|]; [|discriminate].
  destruct (negb _); [discriminate|].
  destruct (existsb _ t) eqn:Ex; intros H; inversion H; subst; cbn.
  - apply existsb_exists in Ex. destruct Ex as (x & Hx & E).
    apply in_map_iff. exists x. now rewrite E.
  - apply in_or_app. right. now left.
Qed.

Lemma succeeded_history w city c tr :
  succeeded w city c tr ->
  exists hid,
    history_rows (tr_db_final tr)
    = (history_rows (working c) ++ [written_history w tr hid])%list.
Proof.
  intros (_ & I1 & _ & D & _ & _ & U & H).
  destruct (insert_history_rows _ _ _ _ _ _ _ H) as [hid E].
  exists hid. rewrite E. f_equal. unfold history_rows.
  destruct (upsert_current_frame _ _ _ _ _ _ U) as (_ & _ & ->).
  destruct (date_resolved_frame _ _ _ _ D) as (_ & _ & ->).
  now destruct (insert_ignore_city_frame _ _ _ _ _ _ I1) as (_ & _ & ->).
Qed.

Lemma succeeded_current w city c tr :
  succeeded w city c tr ->
  In (written_current w tr) (current_rows (tr_db_final tr)) /\
  (pk_ok (working c) = true ->
   rows_for (tr_city_id tr) (tr_db_final tr) = [written_current w tr] /\
   pk_ok (tr_db_final tr) = true).
Proof.
  intros (_ & I1 & _ & D & _ & _ & U & H).
  destruct (insert_history_frame _ _ _ _ _ _ _ H) as (_ & _ & F).
  unfold rows_for, current_rows. rewrite (pk_ok_same_table _ _ F), F. split.
  - exact (upsert_current_in _ _ _ _ _ _ U).
  - intros P. refine (upsert_current_one_row _ _ _ _ _ _ _ U).
    destruct (date_resolved_frame _ _ _ _ D) as (_ & F2 & _).
    destruct (insert_ignore_city_frame _ _ _ _ _ _ I1) as (_ & F1 & _).
    rewrite (pk_ok_same_table _ _ F2), (pk_ok_same_table _ _ F1).
    exact P.
Qed.

Lemma succeeded_city w city c tr :
  succeeded w city c tr ->
  select_city_id city (tr_db_final tr)
  = inr (Some (tr_city_id tr), tr_db_final tr).
Proof.
  intros (_ & _ & S & D & _ & _ & U & H).
  apply (select_city_id_same_table city (tr_db_city tr)); [|exact S].
  destruct (insert_history_frame _ _ _ _ _ _ _ H) as (-> & _).
  destruct (upsert_current_frame _ _ _ _ _ _ U) as (-> & _).
  now destruct (date_resolved_frame _ _ _ _ D) as (-> & _).
Qed.

(** ** Humidity, wind and condition *)

(** C4: whatever the collection day and whatever the date of the first
    entry of the forecast, the humidity, the wind speed and the condition
    text of the reading are those of that first entry; and a pipeline that
    succeeds writes this reading to the row of the city in the current
    table and to the new row of the history. *)
Theorem conditions_from_first_entry :
  (forall today_str e rest rd,
      build_reading today_str (e :: rest) = inr rd ->
      humidity rd = main_humidity e /\
      wind_speed rd = wind_speed_of e /\
      Some (condition_text rd) = hd_error (weather e)) /\
  (forall w city c t c',
      process_city w city c = (inr t, c') ->
      exists e rest rd cid did hid,
        w_forecast w = inr (e :: rest) /\
        humidity rd = main_humidity e /\
        wind_speed rd = wind_speed_of e /\
        Some (condition_text rd) = hd_error (weather e) /\
        In {| cw_city_id := cid; cw_reading := rd;
              last_updated := w_server_now w |}
          (current_rows (committed c')) /\
        history_rows (committed c')
        = (history_rows (working c)
             ++ [{| history_id := hid; hw_city_id := cid; hw_date_id := did;
                    time_measured := strftime_HMS (w_now w);
                    hw_reading := rd |}])%list).
Proof.
  assert (P : forall today_str e rest rd,
             build_reading today_str (e :: rest) = inr rd ->
             humidity rd = main_humidity e /\
             wind_speed rd = wind_speed_of e /\
             Some (condition_text rd) = hd_error (weather e)).
  { intros today_str e rest rd. unfold build_reading, current_conditions.
    destruct (aggregate today_str (e :: rest)) as [x|[[a b] m]];
      [discriminate|].
    destruct (weather e) as [|descr more]; [discriminate|].
    intros H. injection H as <-. cbn. auto. }
  split; [exact P|].
  intros w city c t c' H.
  apply process_city_inr in H. destruct H as (tr & S & -> & _).
  destruct (succeeded_history _ _ _ _ S) as [hid Hh].
  destruct (succeeded_current _ _ _ _ S) as [Hc _].
  pose proof S as (_ & _ & _ & _ & F & B & _).
  destruct (tr_data tr) as [|e rest] eqn:D.
  { unfold build_reading, aggregate in B. cbn in B. discriminate. }
  destruct (P _ _ _ _ B) as (P1 & P2 & P3).
  exists e, rest, (tr_reading tr), (tr_city_id tr), (tr_date_id tr), hid.
  cbn [committed]. repeat split; assumption.
Qed.

(** ** One current row per city *)

(** C6: under the primary key of the current table, after a pipeline of a
    city succeeded the committed table has exactly one row of that city,
    with the reading and the server time of that run; a second successful
    run for the city leaves exactly one row, with the reading and the
    server time of the second run; and through every later batch on the
    connection, however it ends, the city has exactly one row, in the
    working and in the committed image. *)
Theorem current_one_row_per_city (w1 : city_world) (city : string)
  (c c1 : conn) (t1 : number) :
  pk_ok (working c) = true ->
  process_city w1 city c = (inr t1, c1) ->
  exists cid rd1,
    select_city_id city (working c1) = inr (Some cid, working c1) /\
    temp_now rd1 = t1 /\
    rows_for cid (committed c1)
    = [{| cw_city_id := cid; cw_reading := rd1;
          last_updated := w_server_now w1 |}] /\
    (forall w2 t2 c2,
        process_city w2 city c1 = (inr t2, c2) ->
        exists data2 rd2,
          w_forecast w2 = inr data2 /\
          build_reading (isoformat (date_of (w_now w2))) data2 = inr rd2 /\
          temp_now rd2 = t2 /\
          rows_for cid (committed c2)
          = [{| cw_city_id := cid; cw_reading := rd2;
                last_updated := w_server_now w2 |}]) /\
    (forall ws i cs res,
        let c3 := snd (collect_loop ws i cs res c1) in
        List.length (rows_for cid (committed c3)) = 1%nat /\
        List.length (rows_for cid (working c3)) = 1%nat).
Proof.
  intros P H.
  apply process_city_inr in H. destruct H as (tr & S & -> & ->).
  destruct (succeeded_current _ _ _ _ S) as [Hin Hpk].
  destruct (Hpk P) as [R1 P1].
  pose proof (succeeded_city _ _ _ _ S) as Sel.
  exists (tr_city_id tr), (tr_reading tr). cbn [working committed].
  split; [exact Sel|]. split; [reflexivity|]. split; [exact R1|]. split.
  - intros w2 t2 c2 H2.
    apply process_city_inr in H2. destruct H2 as (tr2 & S2 & -> & ->).
    destruct (succeeded_current _ _ _ _ S2) as [_ Hpk2].
    destruct (Hpk2 P1) as [R2 _].
    pose proof S2 as (_ & I2 & Sel2 & _ & F2 & B2 & _).
    cbn [working] in I2.
    destruct (select_city_id_found _ _ _ _ _ _ Sel I2) as [_ E].
    rewrite E in Sel2. injection Sel2 as E2.
    exists (tr_data tr2), (tr_reading tr2). cbn [committed].
    rewrite E2. repeat split; assumption.
  - intros ws i cs res.
    set (d := tr_db_final tr) in *.
    set (c3 := snd (collect_loop ws i cs res _)).
    assert (G : growing d d c3).
    { apply collect_loop_growing. split; [|split]; apply grows_refl. }
    assert (K : pk_holds c3).
    { apply collect_loop_keeps; [|now split].
      intros j x _. apply process_city_pk. }
    destruct G as (G0 & _ & G1). destruct K as [K0 K1].
    assert (In (tr_city_id tr) (current_keys d)) as Hk.
    { unfold current_keys. apply in_map_iff.
      exists (written_current w1 tr). now split. }
    split; eapply one_row_stays; eassumption.
Qed.

(** ** The history is append-only *)

Lemma create_schema_grows (env : schema_env) (d : db) :
  grows d (fst (create_schema env d)).
Proof.
  destruct (create_schema_keeps_tables env d) as (K1 & K2 & K3 & K4).
  split; unfold city_rows, date_rows, current_keys, current_rows,
    history_rows.
  - destruct (dim_city d) as [t|]; [now rewrite (K1 t eq_refl);
      apply prefix_of_refl|now eexists].
  - destruct (dim_date d) as [t|]; [now rewrite (K2 t eq_refl);
      apply prefix_of_refl|now eexists].
  - destruct (current_weather d) as [t|]; [now rewrite (K3 t eq_refl);
      apply prefix_of_refl|now eexists].
  - destruct (historical_weather d) as [t|]; [now rewrite (K4 t eq_refl);
      apply prefix_of_refl|now eexists].
Qed.

Lemma process_city_working_grows (d1 : db) (w : city_world) (city : string) :
  triple (fun c => grows d1 (working c)) (process_city w city)
    (fun _ c => grows d1 (working c)) (fun _ c => grows d1 (working c)).
Proof.
  apply process_city_keeps; unfold keeps, commit_keeps; cbn.
  - auto.
  - intros la lo c [] d G H. eapply grows_trans; [exact G|].
    exact (insert_ignore_city_grows _ _ _ _ _ _ H).
  - intros now q c a d G H. eapply grows_trans; [exact G|].
    exact (insert_date_grows _ _ _ _ _ H).
  - intros cid rd srv c d G _ H. eapply grows_trans; [exact G|].
    exact (upsert_current_grows _ _ _ _ _ _ H).
  - intros cid did tm rd c [] d G H. eapply grows_trans; [exact G|].
    exact (insert_history_grows _ _ _ _ _ _ _ H).
Qed.

Lemma collect_weather_grows ok ws cs d :
  grows d (final_db (collect_weather ok ws cs d)).
Proof.
  unfold collect_weather. destruct ok; cbn [negb]; [|apply grows_refl].
  pose proof (collect_loop_growing d d ws cs 0 [] (connect d)
                (connect_growing d)) as (G & _).
  destruct (collect_loop ws 0 cs [] (connect d)) as [[[e|] res] c];
    [destruct (is_mysql_Error e)|]; exact G.
Qed.

Lemma main_on_grows cs w d : grows d (final_db (main_on cs w d)).
Proof.
  unfold main_on.
  pose proof (create_schema_grows (w_schema w) d) as G1.
  destruct (create_schema (w_schema w) d) as [d1 out1]. cbn [fst] in G1.
  pose proof (collect_weather_grows (w_connect w) (w_city w) cs d1) as G2.
  destruct (ended _); cbn [final_db]; eapply grows_trans; eassumption.
Qed.

Lemma count_history_app (cid : Z) (d d' : db) (r : history_row) :
  history_rows d' = (history_rows d ++ [r])%list ->
  count_history cid d'
  = (count_history cid d + if (hw_city_id r =? cid)%Z then 1 else 0)%nat.
Proof.
  unfold count_history. intros ->. rewrite filter_app, length_app. cbn.
  now destruct (hw_city_id r =? cid).
Qed.

(** C7: a pipeline that succeeds leaves the history with its former rows,
    unchanged and in place, and one new row, of the city, so the count of
    the city goes up by one and no other count moves; whatever its
    outcome, a pipeline keeps every former row of the working image and,
    on a connection whose working image has grown from the committed one,
    of the committed image; and a batch or a whole run of the program,
    however it ends, keeps every history row the store had. *)
Theorem history_append_only (w : city_world) (city : string) (c : conn) :
  (forall t c',
      process_city w city c = (inr t, c') ->
      exists cid r,
        select_city_id city (working c') = inr (Some cid, working c') /\
        hw_city_id r = cid /\
        committed c' = working c' /\
        history_rows (working c') = (history_rows (working c) ++ [r])%list /\
        count_history cid (working c') = S (count_history cid (working c)) /\
        forall other, other <> cid ->
                      count_history other (working c')
                      = count_history other (working c)) /\
  (forall r c',
      process_city w city c = (r, c') ->
      prefix_of (history_rows (working c)) (history_rows (working c')) /\
      (grows (committed c) (working c) ->
       prefix_of (history_rows (committed c)) (history_rows (committed c')))) /\
  (forall ok ws cs d,
      prefix_of (history_rows d)
        (history_rows (final_db (collect_weather ok ws cs d)))) /\
  (forall cs wd d,
      prefix_of (history_rows d) (history_rows (final_db (main_on cs wd d)))).
Proof.
  repeat split.
  - intros t c' H.
    apply process_city_inr in H. destruct H as (tr & S & -> & _).
    destruct (succeeded_history _ _ _ _ S) as [hid Hh].
    exists (tr_city_id tr), (written_history w tr hid). cbn [working committed].
    split; [exact (succeeded_city _ _ _ _ S)|].
    split; [reflexivity|]. split; [reflexivity|]. split; [exact Hh|].
    split.
    + rewrite (count_history_app _ _ _ _ Hh). cbn. rewrite Z.eqb_refl. lia.
    + intros other N. rewrite (count_history_app _ _ _ _ Hh). cbn.
      destruct (tr_city_id tr =? other) eqn:E; [|lia].
      apply Z.eqb_eq in E. congruence.
  - pose proof (process_city_working_grows (working c) w city c
                  (grows_refl _)) as G.
    rewrite H in G. destruct r; apply G.
  - intros G0.
    pose proof (process_city_growing (committed c) (working c) w city c) as G.
    rewrite H in G.
    assert (growing (committed c) (working c) c) as X.
    { split; [|split]; [apply grows_refl|exact G0|apply grows_refl]. }
    specialize (G X). destruct r; apply G.
  - apply collect_weather_grows.
  - apply main_on_grows.
Qed.

(** ** Durability of committed work *)

Lemma city_keys_ok_same_table (d d' : db) :
  dim_city d' = dim_city d -> city_keys_ok d' = city_keys_ok d.
Proof. unfold city_keys_ok. now intros ->. Qed.

Lemma insert_ignore_city_keys_ok city la lo d u d' :
  city_keys_ok d = true ->
  insert_ignore_city city la lo d = inr (u, d') ->
  city_keys_ok d' = true.
Proof.
  unfold city_keys_ok, insert_ignore_city.
  destruct (dim_city d) as [t|] eqn:T; [|discriminate].
  destruct (existsb _ _); intros K H; inversion H; subst.
  - cbn. apply andb_prop in K. destruct K as [K1 K2].
    rewrite K1. cbn [andb]. rewrite forallb_forall in K2.
    apply forallb_forall. intros r Hr. specialize (K2 r Hr).
    apply Z.ltb_lt in K2. apply Z.ltb_lt. lia.
  - cbn. apply andb_prop in K. destruct K as [K1 K2].
    rewrite forallb_forall in K2.
    apply andb_true_intro. split.
    + rewrite map_app. apply distinct_app_new; [exact K1|].
      intros Hin. apply in_map_iff in Hin. destruct Hin as (r & E & Hr).
      specialize (K2 r Hr). apply Z.ltb_lt in K2. cbn in E. lia.
    + rewrite forallb_app. apply andb_true_intro. split.
      * apply forallb_forall. intros r Hr. specialize (K2 r Hr).
        apply Z.ltb_lt in K2. apply Z.ltb_lt. lia.
      * cbn. rewrite andb_true_r. apply Z.ltb_lt. lia.
Qed.

Lemma distinct_injective (l : list city_row) (r r' : city_row) :
  distinct (map city_id l) = true ->
  In r l -> In r' l -> city_id r = city_id r' -> r = r'.
Proof.
  induction l as [|x l IH]; cbn; [tauto|].
  intros D Hr Hr' E. apply andb_prop in D. destruct D as [D1 D2].
  apply negb_true_iff in D1.
  assert (N : forall y, In y l -> city_id y <> city_id x).
  { intros y Hy Ey.
    assert (existsb (Z.eqb (city_id x)) (map city_id l) = true) as C.
    { apply existsb_eqb_in. rewrite <- Ey. now apply in_map. }
    congruence. }
  destruct Hr as [<-|Hr], Hr' as [<-|Hr']; auto.
  - exfalso. apply (N _ Hr'). congruence.
  - exfalso. apply (N _ Hr). congruence.
Qed.

Lemma select_city_id_row city d cid :
  select_city_id city d = inr (Some cid, d) ->
  exists r, In r (city_rows d) /\ name r = city /\ city_id r = cid.
Proof.
  unfold select_city_id, city_rows.
  destruct (dim_city d) as [t|]; [|discriminate].
  destruct (find _ (rows t)) as [r|] eqn:F; [|discriminate].
  intros H. injection H as <-. apply find_some in F. destruct F as [F1 F2].
  exists r. repeat split; [exact F1|]. now apply String.eqb_eq.
Qed.

(** The id that the store answers for another name is another id. *)
Lemma other_name_other_id city d cid (cr : city_row) :
  city_keys_ok d = true ->
  In cr (city_rows d) ->
  name cr <> city ->
  select_city_id city d = inr (Some cid, d) ->
  cid <> city_id cr.
Proof.
  intros K Hcr N S. destruct (select_city_id_row _ _ _ S) as (r & Hr & E & <-).
  intros Eid. apply N. rewrite <- E. f_equal.
  unfold city_keys_ok, city_rows in *.
  destruct (dim_city d) as [t|]; [|contradiction].
  apply andb_prop in K. destruct K as [K _].
  symmetry. now apply (distinct_injective (rows t)).
Qed.

Lemma upsert_current_other cid rd srv d u d' (x : current_row) :
  upsert_current cid rd srv d = inr (u, d') ->
  In x (current_rows d) -> cw_city_id x <> cid -> In x (current_rows d').
Proof.
  unfold upsert_current, current_rows.
  destruct (current_weather d) as [t|]; [|discriminate].
  destruct (negb _); [discriminate|].
  destruct (existsb _ t); intros H Hx N; inversion H; subst; cbn.
  - apply in_map_iff. exists x. split; [|exact Hx].
    apply Z.eqb_neq in N. now rewrite N.
  - apply in_or_app. now left.
Qed.

Lemma date_eqb_eq (a b : date) : date_eqb a b = true -> a = b.
Proof.
  destruct a as [[y1 m1] d1], b as [[y2 m2] d2]. cbn. intros H.
  apply andb_prop in H. destruct H as [H H3].
  apply andb_prop in H. destruct H as [H1 H2].
  apply Z.eqb_eq in H1, H2, H3. congruence.
Qed.

Lemma date_resolved_row now d did d' :
  date_resolved now d did d' ->
  exists dr, In dr (date_rows d') /\ date_id dr = did /\
             full_date dr = date_of now.
Proof.
  unfold date_resolved, select_date_id, insert_date, date_rows.
  intros [[S ->]|[_ H]].
  - destruct (dim_date d) as [t|]; [|discriminate].
    destruct (find _ (rows t)) as [r|] eqn:F; [|discriminate].
    injection S as <-. apply find_some in F. destruct F as [F1 F2].
    exists r. repeat split; [exact F1|]. now apply date_eqb_eq.
  - destruct (dim_date d) as [t|]; [|discriminate].
    destruct (existsb _ _); [discriminate|].
    injection H as <- <-. cbn.
    eexists. split; [apply in_or_app; right; now left|]. now split.
Qed.

Lemma holds_rows_grows cr dr hr d d' :
  grows d d' -> city_keys_ok d' = true ->
  holds_rows cr dr hr d -> holds_rows cr dr hr d'.
Proof.
  intros [G1 G2 G3 G4] K (_ & H1 & H2 & H3 & H4).
  split; [exact K|]. repeat split; eapply prefix_of_in; eassumption.
Qed.

Lemma process_city_holds_rows cr dr hr (w : city_world) (city : string) :
  triple (on_both (holds_rows cr dr hr)) (process_city w city)
    (fun _ => on_both (holds_rows cr dr hr))
    (fun _ => on_both (holds_rows cr dr hr)).
Proof.
  apply process_city_keeps; unfold keeps, commit_keeps, on_both; cbn.
  - tauto.
  - intros la lo c [] d [J1 J2] H. split; [exact J1|].
    apply (holds_rows_grows _ _ _ (working c));
      [exact (insert_ignore_city_grows _ _ _ _ _ _ H)| |exact J2].
    destruct J2 as [K _]. exact (insert_ignore_city_keys_ok _ _ _ _ _ _ K H).
  - intros now q c a d [J1 J2] H. split; [exact J1|].
    apply (holds_rows_grows _ _ _ (working c));
      [exact (insert_date_grows _ _ _ _ _ H)| |exact J2].
    destruct (insert_date_frame _ _ _ _ _ H) as (F & _).
    rewrite (city_keys_ok_same_table _ _ F). apply J2.
  - intros cid rd srv c d [J1 J2] _ H. split; [exact J1|].
    apply (holds_rows_grows _ _ _ (working c));
      [exact (upsert_current_grows _ _ _ _ _ _ H)| |exact J2].
    destruct (upsert_current_frame _ _ _ _ _ _ H) as (F & _).
    rewrite (city_keys_ok_same_table _ _ F). apply J2.
  - intros cid did tm rd c [] d [J1 J2] H. split; [exact J1|].
    apply (holds_rows_grows _ _ _ (working c));
      [exact (insert_history_grows _ _ _ _ _ _ _ H)| |exact J2].
    destruct (insert_history_frame _ _ _ _ _ _ _ H) as (F & _).
    rewrite (city_keys_ok_same_table _ _ F). apply J2.
Qed.

Lemma in_same_current (sr : current_row) (d d' : db) :
  current_weather d' = current_weather d ->
  In sr (current_rows d) -> In sr (current_rows d').
Proof. unfold current_rows. now intros ->. Qed.

Lemma process_city_holds_current cr dr hr sr (w : city_world)
  (city : string) :
  cw_city_id sr = city_id cr ->
  name cr <> city ->
  triple (on_both (holds_current cr dr hr sr)) (process_city w city)
    (fun _ => on_both (holds_current cr dr hr sr))
    (fun _ => on_both (holds_current cr dr hr sr)).
Proof.
  intros Esr N.
  pose proof (process_city_holds_rows cr dr hr w city) as Base.
  assert (Split : forall c, on_both (holds_current cr dr hr sr) c ->
                            on_both (holds_rows cr dr hr) c).
  { intros c [[A _] [B _]]. now split. }
  apply process_city_keeps; unfold keeps, commit_keeps; cbn.
  - unfold on_both. cbn. tauto.
  - intros la lo c [] d [J1 [J2 J3]] H. split; [exact J1|]. cbn. split.
    + apply (holds_rows_grows _ _ _ (working c));
        [exact (insert_ignore_city_grows _ _ _ _ _ _ H)| |exact J2].
      destruct J2 as [K _].
      exact (insert_ignore_city_keys_ok _ _ _ _ _ _ K H).
    + destruct (insert_ignore_city_frame _ _ _ _ _ _ H) as (_ & F & _).
      exact (in_same_current _ _ _ F J3).
  - intros now q c a d [J1 [J2 J3]] H. split; [exact J1|]. cbn. split.
    + apply (holds_rows_grows _ _ _ (working c));
        [exact (insert_date_grows _ _ _ _ _ H)| |exact J2].
      destruct (insert_date_frame _ _ _ _ _ H) as (F & _).
      rewrite (city_keys_ok_same_table _ _ F). apply J2.
    + destruct (insert_date_frame _ _ _ _ _ H) as (_ & F & _).
      exact (in_same_current _ _ _ F J3).
  - intros cid rd srv c d [J1 [J2 J3]] S H. split; [exact J1|]. cbn. split.
    + apply (holds_rows_grows _ _ _ (working c));
        [exact (upsert_current_grows _ _ _ _ _ _ H)| |exact J2].
      destruct (upsert_current_frame _ _ _ _ _ _ H) as (F & _).
      rewrite (city_keys_ok_same_table _ _ F). apply J2.
    + apply (upsert_current_other _ _ _ _ _ _ _ H J3).
      rewrite Esr. intros E. destruct J2 as (K & Hcr & _).
      exact (other_name_other_id _ _ _ _ K Hcr N S (eq_sym E)).
  - intros cid did tm rd c [] d [J1 [J2 J3]] H. split; [exact J1|].
    cbn. split.
    + apply (holds_rows_grows _ _ _ (working c));
        [exact (insert_history_grows _ _ _ _ _ _ _ H)| |exact J2].
      destruct (insert_history_frame _ _ _ _ _ _ _ H) as (F & _).
      rewrite (city_keys_ok_same_table _ _ F). apply J2.
    + destruct (insert_history_frame _ _ _ _ _ _ _ H) as (_ & _ & F).
      exact (in_same_current _ _ _ F J3).
Qed.

(** C9: each dimension resolution that returns has committed what it wrote;
    a pipeline that succeeds ends with everything committed: the row of the
    city, the row of the date, the current row with the reading and the new
    history row are in the committed image.  Through the cities processed
    later on the connection, whatever their outcomes and also when the
    loop is left by an interrupt, the committed image keeps the city row,
    the date row, the history row and a current row of the city, and keeps
    the current row as written when the city is not processed again. *)
Theorem committed_work_is_durable (w : city_world) (city : string)
  (c c1 : conn) (t : number) :
  (forall la lo cid c',
      get_or_create_city w city la lo c = (inr cid, c') ->
      committed c' = working c') /\
  (forall now d did c',
      get_or_create_date w now (connect d) = (inr did, c') ->
      committed c' = working c') /\
  (city_keys_ok (working c) = true ->
   process_city w city c = (inr t, c1) ->
   committed c1 = working c1 /\
   exists cr dr sr hr,
     name cr = city /\ full_date dr = date_of (w_now w) /\
     cw_city_id sr = city_id cr /\ temp_now (cw_reading sr) = t /\
     hw_city_id hr = city_id cr /\ hw_date_id hr = date_id dr /\
     hw_reading hr = cw_reading sr /\
     In cr (city_rows (committed c1)) /\
     In dr (date_rows (committed c1)) /\
     In sr (current_rows (committed c1)) /\
     In hr (history_rows (committed c1)) /\
     forall ws i cs res,
       let c2 := snd (collect_loop ws i cs res c1) in
       In cr (city_rows (committed c2)) /\
       In dr (date_rows (committed c2)) /\
       In hr (history_rows (committed c2)) /\
       In (city_id cr) (current_keys (committed c2)) /\
       (~ In city cs -> In sr (current_rows (committed c2)))).
Proof.
  split; [|split].
  - intros la lo cid c' H.
    apply get_or_create_city_inr in H. now destruct H as (d1 & -> & _).
  - intros now d did c' H.
    apply get_or_create_date_inr in H. now destruct H as (d' & -> & _).
  - intros K H.
    apply process_city_inr in H. destruct H as (tr & S & -> & ->).
    split; [reflexivity|]. cbn [committed working].
    set (d4 := tr_db_final tr).
    destruct (succeeded_history _ _ _ _ S) as [hid Hh].
    destruct (succeeded_current _ _ _ _ S) as [Hc _].
    pose proof (succeeded_city _ _ _ _ S) as Sel.
    destruct (select_city_id_row _ _ _ Sel) as (cr & Hcr & Ncr & Icr).
    pose proof S as (_ & I1 & _ & D & _ & _ & U & IH).
    destruct (date_resolved_row _ _ _ _ D) as (dr & Hdr & Idr & Fdr).
    assert (Hdr4 : In dr (date_rows d4)).
    { apply (prefix_of_in (date_rows (tr_db_date tr))); [|exact Hdr].
      eapply prefix_of_trans.
      - exact (grows_date _ _ (upsert_current_grows _ _ _ _ _ _ U)).
      - exact (grows_date _ _ (insert_history_grows _ _ _ _ _ _ _ IH)). }
    assert (K4 : city_keys_ok d4 = true).
    { unfold d4.
      destruct (insert_history_frame _ _ _ _ _ _ _ IH) as (F3 & _).
      destruct (upsert_current_frame _ _ _ _ _ _ U) as (F2 & _).
      destruct (date_resolved_frame _ _ _ _ D) as (F1 & _).
      rewrite (city_keys_ok_same_table _ _ F3),
        (city_keys_ok_same_table _ _ F2), (city_keys_ok_same_table _ _ F1).
      exact (insert_ignore_city_keys_ok _ _ _ _ _ _ K I1). }
    assert (Hhr : In (written_history w tr hid) (history_rows d4)).
    { unfold d4. rewrite Hh. apply in_or_app. right. now left. }
    assert (J : holds_current cr dr (written_history w tr hid)
                  (written_current w tr) d4).
    { split; [split; [exact K4|]; repeat split; try assumption|exact Hc].
      unfold current_keys. apply in_map_iff.
      exists (written_current w tr). split; [|exact Hc]. cbn. congruence. }
    exists cr, dr, (written_current w tr), (written_history w tr hid).
    cbn [written_current written_history cw_city_id cw_reading hw_city_id
           hw_date_id hw_reading].
    repeat match goal with |- _ /\ _ => split end;
      try assumption; try congruence; try reflexivity.
    intros ws i cs res.
    set (c2 := snd (collect_loop ws i cs res _)).
    assert (W : on_both (holds_rows cr dr (written_history w tr hid)) c2).
    { apply collect_loop_keeps.
      - intros j x _. apply process_city_holds_rows.
      - destruct J as [J _]. now split. }
    destruct W as [(_ & W1 & W2 & W3 & W4) _].
    repeat match goal with |- _ /\ _ => split end; try assumption.
    intros Nin.
    assert (X : on_both (holds_current cr dr (written_history w tr hid)
                           (written_current w tr)) c2).
    { apply collect_loop_keeps.
      - intros j x Hx. apply process_city_holds_current.
        + cbn. congruence.
        + intros E. apply Nin. congruence.
      - now split. }
    apply X.
Qed.

(** ** A city that fails after its upsert *)

(** The pipeline is the one followed by the other. *)
Lemma process_city_split (w : city_world) (city : string) (c : conn) :
  process_city w city c = bind (up_to_upsert w city) (after_upsert w) c.
Proof.
  unfold process_city, up_to_upsert, after_upsert, bind.
  destruct (lift (get_city_coordinates w city) c) as [[e|[la lo]] c0];
    [reflexivity|].
  destruct (get_or_create_city w city la lo c0) as [[e|cid] c1];
    [reflexivity|].
  destruct (get_or_create_date w (w_now w) c1) as [[e|did] c2];
    [reflexivity|].
  destruct (lift (w_forecast w) c2) as [[e|data] c3]; [reflexivity|].
  destruct (lift (build_reading _ data) c3) as [[e|rd] c4]; [reflexivity|].
  destruct (execute w UpsertCurrent _ c4) as [[e|[]] c5]; reflexivity.
Qed.

Lemma up_to_upsert_inr (w : city_world) (city : string) (c c1 : conn)
  (cid did : Z) (rd : reading) :
  up_to_upsert w city c = (inr (cid, did, rd), c1) ->
  exists la lo d1 d2 d3,
    insert_ignore_city city la lo (working c) = inr (tt, d1) /\
    select_city_id city d1 = inr (Some cid, d1) /\
    date_resolved (w_now w) d1 did d2 /\
    upsert_current cid rd (w_server_now w) d2 = inr (tt, d3) /\
    c1 = {| committed := d2; working := d3 |}.
Proof.
  unfold up_to_upsert. intros H.
  apply bind_inr in H. destruct H as ([la lo] & c0 & H0 & H).
  apply lift_inr in H0. destruct H0 as [G ->].
  apply bind_inr in H. destruct H as (cid' & c1' & H1 & H).
  apply get_or_create_city_inr in H1. destruct H1 as (d1 & -> & I1 & S1).
  apply bind_inr in H. destruct H as (did' & c2 & H2 & H).
  apply get_or_create_date_inr in H2. destruct H2 as (d2 & -> & D2).
  apply bind_inr in H. destruct H as (data & c3 & H3 & H).
  apply lift_inr in H3. destruct H3 as [F ->].
  apply bind_inr in H. destruct H as (rd' & c4 & H4 & H).
  apply lift_inr in H4. destruct H4 as [B ->].
  apply bind_inr in H. destruct H as ([] & c5 & H5 & H).
  apply execute_inr in H5. destruct H5 as (d3 & _ & U & ->).
  injection H as <- <- <- <-. cbn [working committed] in *.
  exists la, lo, d1, d2, d3. repeat split; assumption.
Qed.

(** Once the insert and the commit of [get_or_create_city] execute, what
    the connection held is committed, whatever the call then returns. *)
Lemma get_or_create_city_commits (w : city_world) (city : string)
  (la lo : number) (c c2 : conn) (t : table city_row) (r : exn + Z) :
  dim_city (working c) = Some t ->
  w_fault w InsertCity = None -> w_fault w CommitCity = None ->
  get_or_create_city w city la lo c = (r, c2) ->
  exists d1, insert_ignore_city city la lo (working c) = inr (tt, d1) /\
             c2 = {| committed := d1; working := d1 |}.
Proof.
  intros T Q1 Q2. unfold get_or_create_city, bind, execute, commit.
  rewrite Q1, Q2.
  destruct (insert_ignore_city city la lo (working c)) as [e|[[] d1]] eqn:I1.
  { unfold insert_ignore_city in I1. rewrite T in I1.
    destruct (existsb _ _); discriminate. }
  cbn [working committed].
  destruct (w_fault w SelectCity).
  { intros H. injection H as <- <-. eauto. }
  destruct (select_city_id city d1) as [e|[row d]] eqn:S.
  { intros H. injection H as <- <-. eauto. }
  pose proof (select_city_id_db _ _ _ _ S) as ->.
  destruct row; intros H; injection H as <- <-; eauto.
Qed.

(** C10: when the statement after the upsert, the insert into the history,
    raises, the pipeline raises with the connection as the upsert left it:
    nothing is rolled back, the row written by the upsert is in the working
    image, not yet committed, and the history has no row of this run.  The
    loop records the failure and goes on; as soon as the next
    [get_or_create_city] runs its insert and its commit, the committed
    image has the row of the upsert and still no history row of the run. *)
Theorem failed_city_keeps_pending_upsert (w : city_world) (city : string)
  (c c1 : conn) (cid did : Z) (rd : reading) (e : exn) :
  up_to_upsert w city c = (inr (cid, did, rd), c1) ->
  (w_fault w InsertHistory = Some e \/
   (w_fault w InsertHistory = None /\
    insert_history cid did (strftime_HMS (w_now w)) rd (working c1) = inl e)) ->
  is_Exception e = true ->
  let row := {| cw_city_id := cid; cw_reading := rd;
                last_updated := w_server_now w |} in
  process_city w city c = (inl e, c1) /\
  (forall ws i rest res,
      ws i = w ->
      collect_loop ws i (city :: rest) res c
      = collect_loop ws (S i) rest (res ++ [Failure city e]) c1) /\
  In row (current_rows (working c1)) /\
  current_rows (committed c1) = current_rows (working c) /\
  history_rows (working c1) = history_rows (working c) /\
  forall w' city' la lo r c2,
    w_fault w' InsertCity = None -> w_fault w' CommitCity = None ->
    get_or_create_city w' city' la lo c1 = (r, c2) ->
    In row (current_rows (committed c2)) /\
    history_rows (committed c2) = history_rows (working c).
Proof.
  intros H F X row.
  assert (P : process_city w city c = (inl e, c1)).
  { rewrite process_city_split. unfold bind. rewrite H.
    unfold after_upsert, bind, execute.
    destruct F as [->|[-> ->]]; reflexivity. }
  apply up_to_upsert_inr in H.
  destruct H as (la0 & lo0 & d1 & d2 & d3 & I1 & S & D & U & ->).
  cbn [working committed] in *.
  destruct (insert_ignore_city_frame _ _ _ _ _ _ I1) as (_ & A2 & A3).
  destruct (date_resolved_frame _ _ _ _ D) as (B1 & B2 & B3).
  destruct (upsert_current_frame _ _ _ _ _ _ U) as (C1 & _ & C3).
  assert (Hh : history_rows d3 = history_rows (working c)).
  { unfold history_rows. now rewrite C3, B3, A3. }
  split; [exact P|]. split.
  { intros ws i rest res E. cbn [collect_loop]. rewrite E, P. now rewrite X. }
  split; [exact (upsert_current_in _ _ _ _ _ _ U)|].
  split; [unfold current_rows; now rewrite B2, A2|].
  split; [exact Hh|].
  intros w' city' la lo r c2 Q1 Q2 G.
  assert (exists t, dim_city d3 = Some t) as [t T].
  { rewrite C1, B1. unfold select_city_id in S.
    destruct (dim_city d1); [eauto|discriminate]. }
  destruct (get_or_create_city_commits w' city' la lo
              {| committed := d2; working := d3 |} c2 t r T Q1 Q2 G)
    as (d1' & I' & ->).
  cbn [working committed] in *.
  destruct (insert_ignore_city_frame _ _ _ _ _ _ I') as (_ & E2 & E3).
  split.
  - unfold current_rows. rewrite E2.
    exact (upsert_current_in _ _ _ _ _ _ U).
  - unfold history_rows in *. now rewrite E3.
Qed.

(** ** A failure of the schema provisioning *)


(** * Concrete runs *)



Lemma failures_are_isolated_witness :
  (forall i, exceptions_only (sample_worlds i) = true) /\
  map entry_city
    (processed (collect_weather true sample_worlds ["Rabat"; "Atlantis"; "Fes"]
                  provisioned_db))
  = ["Rabat"; "Atlantis"; "Fes"].
Proof.
  assert (X : forall i, exceptions_only (sample_worlds i) = true).
  { intros i. unfold sample_worlds. destruct (Nat.eqb i 1); reflexivity. }
  split; [exact X|].
  apply (failures_are_isolated sample_worlds ["Rabat"; "Atlantis"; "Fes"]
           provisioned_db X).
Defined.

Lemma aggregate_spec_witness :
  map main_temp (today_entries "2024-05-01" sample_data)
  = [20%Q; 22%Q; 19%Q] /\
  aggregate "2024-05-01" sample_data = inr (20%Q, 19%Q, 22%Q).
Proof.
  split; [reflexivity|].
  apply (proj2 (proj2 (aggregate_spec "2024-05-01" sample_data))).
  reflexivity.
Defined.

Lemma conditions_from_first_entry_witness :
  process_city sample_city_world "Rabat" (connect provisioned_db)
  = (inr 20%Q, after_rabat) /\
  exists e rd,
    hd_error sample_data = Some e /\
    humidity rd = main_humidity e /\
    In rd (map cw_reading (current_rows (committed after_rabat))).
Proof.
  assert (H : process_city sample_city_world "Rabat" (connect provisioned_db)
              = (inr 20%Q, after_rabat)) by reflexivity.
  split; [exact H|].
  destruct (proj2 conditions_from_first_entry _ _ _ _ _ H)
    as (e & rest & rd & cid & did & hid & F & Hu & _ & _ & Hin & _).
  exists e, rd. split; [|split; [exact Hu|]].
  - cbn in F. injection F as <-. reflexivity.
  - apply in_map_iff. eexists. split; [|exact Hin]. reflexivity.
Defined.

Lemma create_schema_idempotent_witness :
  snd (create_schema granting_env no_tables) = [SchemaCreated] /\
  healthy granting_env = true /\
  create_schema granting_env provisioned_db
  = (provisioned_db, [SchemaCreated]).
Proof.
  split; [reflexivity|]. split; [reflexivity|].
  apply (proj1 (proj2 (create_schema_idempotent granting_env no_tables))
           granting_env); reflexivity.
Defined.

Lemma current_one_row_per_city_witness :
  pk_ok (working (connect provisioned_db)) = true /\
  process_city sample_city_world "Rabat" (connect provisioned_db)
  = (inr 20%Q, after_rabat) /\
  exists cid, List.length (rows_for cid (committed after_rabat)) = 1%nat.
Proof.
  assert (H : process_city sample_city_world "Rabat" (connect provisioned_db)
              = (inr 20%Q, after_rabat)) by reflexivity.
  split; [reflexivity|]. split; [exact H|].
  destruct (current_one_row_per_city sample_city_world "Rabat"
              (connect provisioned_db) after_rabat 20%Q eq_refl H)
    as (cid & rd1 & _ & _ & R & _).
  exists cid. rewrite R. reflexivity.
Defined.

Lemma history_append_only_witness :
  process_city sample_city_world "Rabat" (connect provisioned_db)
  = (inr 20%Q, after_rabat) /\
  exists cid,
    count_history cid (working after_rabat)
    = S (count_history cid (working (connect provisioned_db))).
Proof.
  assert (H : process_city sample_city_world "Rabat" (connect provisioned_db)
              = (inr 20%Q, after_rabat)) by reflexivity.
  split; [exact H|].
  destruct (proj1 (history_append_only sample_city_world "Rabat"
                     (connect provisioned_db)) _ _ H)
    as (cid & r & _ & _ & _ & _ & C & _).
  exists cid. exact C.
Defined.

Lemma get_or_create_city_idempotent_witness :
  let c1 := snd (get_or_create_city sample_city_world "Rabat" (34 # 1)
                   ((-6) # 1) (connect provisioned_db)) in
  get_or_create_city sample_city_world "Rabat" (34 # 1) ((-6) # 1)
    (connect provisioned_db) = (inr 1, c1) /\
  city_stmts_quiet unknown_city_world /\
  exists c2,
    get_or_create_city unknown_city_world "Rabat" 0%Q 0%Q c1 = (inr 1, c2) /\
    city_rows (working c2) = city_rows (working c1).
Proof.
  intros c1.
  assert (H : get_or_create_city sample_city_world "Rabat" (34 # 1)
                ((-6) # 1) (connect provisioned_db) = (inr 1, c1))
    by reflexivity.
  assert (Q : city_stmts_quiet unknown_city_world)
    by (repeat split; reflexivity).
  split; [exact H|]. split; [exact Q|].
  destruct (proj1 (proj2 (get_or_create_city_idempotent sample_city_world
                            unknown_city_world "Rabat" (34 # 1) ((-6) # 1)
                            0%Q 0%Q (connect provisioned_db)) 1 c1 H Q))
    as (c2 & H2 & R2 & _).
  exists c2. split; assumption.
Defined.

Lemma committed_work_is_durable_witness :
  city_keys_ok (working (connect provisioned_db)) = true /\
  process_city sample_city_world "Rabat" (connect provisioned_db)
  = (inr 20%Q, after_rabat) /\
  committed after_rabat = working after_rabat.
Proof.
  assert (H : process_city sample_city_world "Rabat" (connect provisioned_db)
              = (inr 20%Q, after_rabat)) by reflexivity.
  split; [reflexivity|]. split; [exact H|].
  apply (proj2 (proj2 (committed_work_is_durable sample_city_world "Rabat"
                         (connect provisioned_db) after_rabat 20%Q))
           eq_refl H).
Defined.

(** On the store without the history table, the upsert of Rabat executes
    and the insert into the history raises. *)
Lemma failed_city_keeps_pending_upsert_witness :
  up_to_upsert sample_city_world "Rabat" (connect partial_db)
  = (inr (1, 1, sample_reading), rabat_pending) /\
  insert_history 1 1 (strftime_HMS sample_now) sample_reading
    (working rabat_pending) = inl no_such_table /\
  process_city sample_city_world "Rabat" (connect partial_db)
  = (inl no_such_table, rabat_pending) /\
  current_rows (committed rabat_pending) = [] /\
  List.length (current_rows (working rabat_pending)) = 1%nat.
Proof.
  assert (H : up_to_upsert sample_city_world "Rabat" (connect partial_db)
              = (inr (1, 1, sample_reading), rabat_pending)) by reflexivity.
  assert (F : insert_history 1 1 (strftime_HMS sample_now) sample_reading
                (working rabat_pending) = inl no_such_table) by reflexivity.
  split; [exact H|]. split; [exact F|].
  split; [|split; reflexivity].
  exact (proj1 (failed_city_keeps_pending_upsert sample_city_world "Rabat"
                  (connect partial_db) rabat_pending 1 1 sample_reading
                  no_such_table H (or_intror (conj eq_refl F)) eq_refl)).
Defined.

(** * Further properties of the program *)

(** ** The date dimension *)

Lemma find_none_existsb {A} (f : A -> bool) (l : list A) :
  find f l = None -> existsb f l = false.
Proof.
  induction l as [|x l IH]; cbn; [reflexivity|].
  destruct (f x); [discriminate|exact IH].
Qed.

(** A date that has a row is answered from that row: nothing is written
    and nothing is committed. *)
Lemma get_or_create_date_found (w : city_world) (now : datetime) (c : conn)
  (did : Z) :
  w_fault w SelectDate = None ->
  select_date_id (date_of now) (working c) = inr (Some did, working c) ->
  get_or_create_date w now c = (inr did, c).
Proof.
  intros Q S. unfold get_or_create_date, bind, execute.
  rewrite Q, S. cbn. now rewrite conn_eta.
Qed.

(** The two ways in which a resolution of a date returns. *)
Lemma get_or_create_date_cases (w : city_world) (now : datetime)
  (c c' : conn) (did : Z) :
  get_or_create_date w now c = (inr did, c') ->
  (select_date_id (date_of now) (working c) = inr (Some did, working c) /\
   c' = c) \/
  (select_date_id (date_of now) (working c) = inr (None, working c) /\
   exists d', insert_date now ((dt_month now - 1) / 3 + 1) (working c)
              = inr (did, d') /\
              c' = {| committed := d'; working := d' |}).
Proof.
  unfold get_or_create_date. intros H.
  apply bind_inr in H. destruct H as (row & c1 & H1 & H).
  apply execute_inr in H1. destruct H1 as (d1 & _ & S & ->).
  pose proof (select_date_id_db _ _ _ _ S) as ->.
  rewrite conn_eta in H.
  destruct row as [did'|].
  - injection H as <- <-. now left.
  - apply bind_inr in H. destruct H as (did' & c2 & H2 & H).
    apply execute_inr in H2. destruct H2 as (d2 & _ & Ins & ->).
    apply bind_inr in H. destruct H as (u & c3 & H3 & H).
    apply commit_inr in H3. destruct H3 as (_ & ->).
    injection H as <- <-. cbn [working committed] in *.
    right. split; [exact S|]. eauto.
Qed.

Lemma insert_date_rows now q d did d' :
  insert_date now q d = inr (did, d') ->
  exists t,
    dim_date d = Some t /\ did = auto_increment t /\
    existsb (fun r => date_eqb (full_date r) (date_of now)) (rows t) = false /\
    dim_date d'
    = Some {| rows := (rows t
                         ++ [{| date_id := did; full_date := date_of now;
                                year := dt_year now; month := dt_month now;
                                day := dt_day now; quarter := q;
                                day_name := dt_day_name now;
                                week_of_year := dt_iso_week now |}])%list;
              auto_increment := auto_increment t + 1 |}.
Proof.
  unfold insert_date.
  destruct (dim_date d) as [t|]; [|discriminate].
  destruct (existsb _ (rows t)) eqn:Ex; [discriminate|].
  intros H. injection H as <- <-. exists t. cbn. auto.
Qed.

Lemma date_eqb_refl (a : date) : date_eqb a a = true.
Proof. destruct a as [[y m] d]. cbn. now rewrite !Z.eqb_refl. Qed.

(** After a resolution that returned [did], the store answers [did] for
    the date. *)
Lemma get_or_create_date_select (w : city_world) (now : datetime)
  (c c' : conn) (did : Z) :
  get_or_create_date w now c = (inr did, c') ->
  select_date_id (date_of now) (working c') = inr (Some did, working c').
Proof.
  intros H. destruct (get_or_create_date_cases _ _ _ _ _ H)
    as [[S ->]|[_ (d' & Ins & ->)]]; [exact S|].
  cbn [working].
  destruct (insert_date_rows _ _ _ _ _ Ins) as (t & T & -> & Ex & R).
  unfold select_date_id. rewrite R. cbn [rows].
  rewrite find_app_last; [reflexivity|exact Ex|].
  cbn [full_date]. apply date_eqb_refl.
Qed.

Lemma get_or_create_date_count (w : city_world) (now : datetime)
  (c c' : conn) (did : Z) :
  get_or_create_date w now c = (inr did, c') ->
  count_dated (date_of now) (working c')
  = Nat.max 1 (count_dated (date_of now) (working c)) /\
  (List.length (date_rows (working c'))
   <= List.length (date_rows (working c)) + 1)%nat.
Proof.
  intros H. unfold count_dated.
  destruct (get_or_create_date_cases _ _ _ _ _ H)
    as [[S ->]|[_ (d' & Ins & ->)]].
  - split; [|lia]. unfold select_date_id, date_rows in *.
    destruct (dim_date (working c)) as [t|]; [|discriminate].
    destruct (find _ (rows t)) as [r|] eqn:F; [|discriminate].
    assert (existsb (fun r => date_eqb (full_date r) (date_of now)) (rows t)
            = true) as Ex.
    { apply existsb_exists. exists r. exact (find_some _ _ F). }
    apply existsb_filter_length in Ex. lia.
  - cbn [working].
    destruct (insert_date_rows _ _ _ _ _ Ins) as (t & T & _ & Ex & R).
    unfold date_rows. rewrite R, T. cbn [rows].
    rewrite filter_app, !length_app.
    rewrite (existsb_false_filter _ _ Ex). cbn [filter full_date].
    rewrite date_eqb_refl. cbn. split; lia.
Qed.

(** A resolution of a date returns whenever [dim_date] exists and the store
    does not fail. *)
Lemma get_or_create_date_runs (w : city_world) (now : datetime) (c : conn) :
  dim_date (working c) <> None -> date_stmts_quiet w ->
  exists did c1, get_or_create_date w now c = (inr did, c1).
Proof.
  intros T (Q1 & Q2 & Q3).
  destruct (dim_date (working c)) as [t|] eqn:Ht; [|congruence].
  unfold get_or_create_date, bind, execute, commit.
  rewrite Q1, Q2, Q3. unfold select_date_id. rewrite Ht.
  destruct (find _ (rows t)) as [r|] eqn:F; cbn.
  - unfold ret. eauto.
  - unfold insert_date. rewrite Ht, (find_none_existsb _ _ F).
    unfold ret. cbn. eauto.
Qed.

(** X1: a resolution of a date returns whenever [dim_date] exists and the
    store does not fail (the insert never meets a duplicate).  Once a
    first resolution returned an id, a second one for a timestamp of the
    same calendar date, at whatever time of day, returns the same id and
    leaves the connection as it is; the first adds at most one row, and a
    date that had at most one row has exactly one afterwards. *)
Theorem get_or_create_date_idempotent (w1 w2 : city_world)
  (now1 now2 : datetime) (c : conn) :
  date_of now1 = date_of now2 ->
  (dim_date (working c) <> None -> date_stmts_quiet w1 ->
   exists did c1, get_or_create_date w1 now1 c = (inr did, c1)) /\
  (forall did c1,
      get_or_create_date w1 now1 c = (inr did, c1) ->
      w_fault w2 SelectDate = None ->
      get_or_create_date w2 now2 c1 = (inr did, c1) /\
      (List.length (date_rows (working c1))
       <= List.length (date_rows (working c)) + 1)%nat /\
      count_dated (date_of now1) (working c1)
      = Nat.max 1 (count_dated (date_of now1) (working c)) /\
      ((count_dated (date_of now1) (working c) <= 1)%nat ->
       count_dated (date_of now1) (working c1) = 1%nat)).
Proof.
  intros E. split.
  - apply get_or_create_date_runs.
  - intros did c1 H Q.
    destruct (get_or_create_date_count _ _ _ _ _ H) as [Hc Hl].
    split; [|split; [exact Hl|split; [exact Hc|lia]]].
    apply get_or_create_date_found; [exact Q|]. rewrite <- E.
    exact (get_or_create_date_select _ _ _ _ _ H).
Qed.

(** X2: when the date has no row yet, the resolution appends one row to
    [dim_date], keyed by the returned id and carrying the year, month, day,
    weekday name and ISO week of the timestamp, and commits it; for a
    month between 1 and 12 the quarter of the row is between 1 and 4 and
    is the calendar quarter of the month. *)
Theorem get_or_create_date_new_row (w : city_world) (now : datetime)
  (c c1 : conn) (did : Z) :
  select_date_id (date_of now) (working c) = inr (None, working c) ->
  get_or_create_date w now c = (inr did, c1) ->
  date_rows (working c1)
  = (date_rows (working c) ++ [new_date_row now did])%list /\
  committed c1 = working c1 /\
  (1 <= dt_month now <= 12 ->
   1 <= quarter (new_date_row now did) <= 4 /\
   3 * (quarter (new_date_row now did) - 1) < dt_month now
   <= 3 * quarter (new_date_row now did)).
Proof.
  intros S H.
  destruct (get_or_create_date_cases _ _ _ _ _ H)
    as [[S' _]|[_ (d' & Ins & ->)]]; [congruence|].
  cbn [working committed].
  destruct (insert_date_rows _ _ _ _ _ Ins) as (t & T & _ & _ & R).
  split; [|split; [reflexivity|]].
  - unfold date_rows. now rewrite R, T.
  - intros M. cbn [quarter new_date_row].
    pose proof (Z.div_mod (dt_month now - 1) 3 ltac:(lia)) as D.
    pose proof (Z.mod_pos_bound (dt_month now - 1) 3 ltac:(lia)) as B.
    lia.
Qed.

(** ** What the resolution of a city can raise *)

Lemma get_or_create_city_inl (w : city_world) (city : string)
  (la lo : number) (c c' : conn) (e : exn) :
  city_stmts_quiet w ->
  get_or_create_city w city la lo c = (inl e, c') ->
  dim_city (working c) = None /\ e = no_such_table /\ c' = c.
Proof.
  intros Q H.
  destruct (dim_city (working c)) as [t|] eqn:T.
  - destruct (get_or_create_city_runs w city la lo c t T Q)
      as (cid & d1 & R & _).
    rewrite R in H. discriminate H.
  - destruct Q as (Q1 & _).
    unfold get_or_create_city, bind, execute in H. rewrite Q1 in H.
    unfold insert_ignore_city in H. rewrite T in H.
    injection H as <- <-. auto.
Qed.

(** X3: when the store does not fail at its statements,
    [get_or_create_city] raises only if [dim_city] does not exist, and then
    with the connection untouched; [fetchone()] never answers [None] after
    the insert, so [fetchone()[0]] never raises. *)
Theorem get_or_create_city_raises_only (w : city_world) (city : string)
  (la lo : number) (c c' : conn) (e : exn) :
  city_stmts_quiet w ->
  get_or_create_city w city la lo c = (inl e, c') ->
  dim_city (working c) = None /\ e = no_such_table /\ c' = c.
Proof.
  intros Q H.
  destruct (dim_city (working c)) as [t|] eqn:T.
  - destruct (get_or_create_city_runs w city la lo c t T Q)
      as (cid & d1 & R & _).
    rewrite R in H. discriminate H.
  - destruct Q as (Q1 & _).
    unfold get_or_create_city, bind, execute in H. rewrite Q1 in H.
    unfold insert_ignore_city in H. rewrite T in H.
    injection H as <- <-. auto.
Qed.

(** ** The reading *)

Lemma today_temps_in (today_str : string) (data : list entry) (t : number) :
  In t (today_temps today_str data) -> In t (map main_temp data).
Proof.
  unfold today_temps. intros H. apply in_map_iff in H.
  destruct H as (e & <- & He). apply filter_In in He. destruct He as [He _].
  now apply in_map.
Qed.

(** X6: in every reading that is built, [temp_min <= temp_now <= temp_max],
    and the three are temperatures of entries of the forecast. *)
Theorem reading_temperatures_ordered (today_str : string)
  (data : list entry) (rd : reading) :
  build_reading today_str data = inr rd ->
  (temp_min rd <= temp_now rd)%Q /\ (temp_now rd <= temp_max rd)%Q /\
  In (temp_now rd) (map main_temp data) /\
  In (temp_min rd) (map main_temp data) /\
  In (temp_max rd) (map main_temp data).
Proof.
  unfold build_reading, aggregate.
  destruct (today_temps today_str data) as [|t ts] eqn:T.
  - destruct data as [|e rest]; [discriminate|].
    destruct (current_conditions (e :: rest)) as [x|[[h wd] cd]];
      [discriminate|].
    intros H. injection H as <-. cbn.
    repeat split; try apply Qle_refl; now left.
  - destruct (current_conditions data) as [x|[[h wd] cd]]; [discriminate|].
    intros H. injection H as <-. cbn [temp_now temp_min temp_max].
    assert (I : forall x, In x (t :: ts) -> In x (map main_temp data)).
    { intros x Hx. apply (today_temps_in today_str). now rewrite T. }
    split; [apply py_min_lower; now left|].
    split; [apply py_max_upper; now left|].
    split; [apply I; now left|].
    split; apply I; [apply py_min_in|apply py_max_in].
Qed.

(** ** A city whose forecast cannot be used *)

(** X7: when the coordinates are found and both dimensions are resolved,
    but the forecast request raises or no reading can be built from its
    answer, the pipeline raises that exception after the dimensions were
    committed: the committed store has a row of the city and a row of the
    date, and the two fact tables are as the working image had them. *)
Theorem fetch_failure_keeps_dimensions (w : city_world) (city : string)
  (c : conn) (la lo : number) (e : exn) :
  get_city_coordinates w city = inr (la, lo) ->
  dim_city (working c) <> None -> dim_date (working c) <> None ->
  city_stmts_quiet w -> date_stmts_quiet w ->
  (w_forecast w = inl e \/
   exists data, w_forecast w = inr data /\
                build_reading (isoformat (date_of (w_now w))) data = inl e) ->
  exists c',
    process_city w city c = (inl e, c') /\
    committed c' = working c' /\
    (1 <= count_named city (committed c'))%nat /\
    (1 <= count_dated (date_of (w_now w)) (committed c'))%nat /\
    current_weather (committed c') = current_weather (working c) /\
    historical_weather (committed c') = historical_weather (working c).
Proof.
  intros G Tc Td Qc Qd F.
  destruct (dim_city (working c)) as [t|] eqn:Ht; [|congruence].
  destruct (get_or_create_city_runs w city la lo c t Ht Qc)
    as (cid & d1 & R1 & I1 & _).
  destruct (insert_ignore_city_frame _ _ _ _ _ _ I1) as (F1 & F2 & F3).
  destruct (insert_ignore_city_count _ _ _ _ _ I1) as [N1 _].
  assert (Td1 : dim_date (working {| committed := d1; working := d1 |})
                <> None) by (cbn; now rewrite F1).
  destruct (get_or_create_date_runs w (w_now w) _ Td1 Qd) as (did & c2 & R2).
  destruct (get_or_create_date_count _ _ _ _ _ R2) as [N2 _].
  destruct (get_or_create_date_inr _ _ _ _ _ R2) as (d2 & -> & D).
  destruct (date_resolved_frame _ _ _ _ D) as (E1 & E2 & E3).
  exists {| committed := d2; working := d2 |}. cbn [working committed] in *.
  split; [|split; [reflexivity|split; [|split; [lia|split; congruence]]]].
  - unfold process_city, bind. rewrite G. cbn [lift ret]. rewrite R1, R2.
    destruct F as [->|(data & -> & B)]; [reflexivity|].
    cbn [lift ret]. now rewrite B.
  - unfold count_named, city_rows in *. rewrite E1. lia.
Qed.

(** ** The filter on the collection day *)

Lemma digit_inj (a b : Z) : digit a = digit b -> a mod 10 = b mod 10.
Proof.
  unfold digit. intros H.
  pose proof (Z.mod_pos_bound a 10 ltac:(lia)) as Ba.
  pose proof (Z.mod_pos_bound b 10 ltac:(lia)) as Bb.
  apply (f_equal nat_of_ascii) in H.
  rewrite !nat_ascii_embedding in H by lia. lia.
Qed.

Lemma pad2_inj (m m' : Z) :
  0 <= m <= 99 -> 0 <= m' <= 99 -> pad2 m = pad2 m' -> m = m'.
Proof.
  unfold pad2. intros B B' H. injection H as H1 H2.
  apply digit_inj in H1, H2.
  pose proof (Z.div_mod m 10 ltac:(lia)) as D.
  pose proof (Z.div_mod m' 10 ltac:(lia)) as D'.
  assert (0 <= m / 10 < 10) by (split; [apply Z.div_pos|
    apply Z.div_lt_upper_bound]; lia).
  assert (0 <= m' / 10 < 10) by (split; [apply Z.div_pos|
    apply Z.div_lt_upper_bound]; lia).
  rewrite !Z.mod_small in H1 by lia. lia.
Qed.

Lemma pad4_inj (y y' : Z) :
  0 <= y <= 9999 -> 0 <= y' <= 9999 -> pad4 y = pad4 y' -> y = y'.
Proof.
  unfold pad4, pad2. intros B B' H. injection H as H1 H2 H3 H4.
  apply digit_inj in H1, H2, H3, H4.
  assert (R : forall n, 0 <= n <= 9999 ->
                        n = 1000 * ((n / 1000) mod 10)
                            + 100 * ((n / 100) mod 10)
                            + 10 * ((n / 10) mod 10) + n mod 10).
  { intros n Bn.
    pose proof (Z.div_mod n 10 ltac:(lia)) as D1.
    pose proof (Z.div_mod (n / 10) 10 ltac:(lia)) as D2.
    pose proof (Z.div_mod (n / 100) 10 ltac:(lia)) as D3.
    assert (E2 : n / 10 / 10 = n / 100)
      by (rewrite Z.div_div by lia; reflexivity).
    assert (E3 : n / 100 / 10 = n / 1000)
      by (rewrite Z.div_div by lia; reflexivity).
    rewrite E2 in D2. rewrite E3 in D3.
    assert (0 <= n / 1000 < 10) by (split; [apply Z.div_pos|
      apply Z.div_lt_upper_bound]; lia).
    rewrite (Z.mod_small (n / 1000)) by lia. lia. }
  rewrite (R y B), (R y' B'). congruence.
Qed.

Lemma prefix_append (s t : string) : String.prefix s (s ++ t) = true.
Proof.
  induction s as [|a s IH]; cbn; [now destruct t|].
  destruct (ascii_dec a a); [exact IH|congruence].
Qed.

Lemma prefix_same_length (s s' t : string) :
  String.length s = String.length s' ->
  String.prefix s (s' ++ t) = true -> s = s'.
Proof.
  revert s'. induction s as [|a s IH]; intros [|b s'] L; try discriminate L.
  - reflexivity.
  - cbn [append String.prefix].
    destruct (ascii_dec a b) as [->|]; [|discriminate].
    intros H. f_equal. apply IH; [now injection L|exact H].
Qed.

Lemma append_same_length (s s' t t' : string) :
  String.length s = String.length s' ->
  (s ++ t = s' ++ t')%string -> s = s' /\ t = t'.
Proof.
  revert s'. induction s as [|a s IH]; intros [|b s'] L; try discriminate L.
  - cbn. auto.
  - cbn [append]. intros H. injection H as -> H.
    destruct (IH s' ltac:(now injection L) H) as [-> ->]. auto.
Qed.

Lemma isoformat_length (d : date) : String.length (isoformat d) = 10%nat.
Proof. destruct d as [[y m] dd]. reflexivity. Qed.

Lemma isoformat_inj (d d' : date) :
  printable_date d -> printable_date d' ->
  isoformat d = isoformat d' -> d = d'.
Proof.
  destruct d as [[y m] dd], d' as [[y' m'] dd'].
  intros (Py & Pm & Pd) (Py' & Pm' & Pd'). unfold isoformat. intros H.
  apply append_same_length in H; [|reflexivity]. destruct H as [Ey H].
  apply (append_same_length "-" "-") in H; [|reflexivity].
  destruct H as [_ H].
  apply append_same_length in H; [|reflexivity]. destruct H as [Em H].
  apply (append_same_length "-" "-") in H; [|reflexivity].
  destruct H as [_ Ed].
  now rewrite (pad4_inj y y'), (pad2_inj m m'), (pad2_inj dd dd').
Qed.

(** X8: for dates that [isoformat] writes with four, two and two digits, a
    [dt_txt] that starts with the ISO form of a date passes the filter of
    line 144 exactly when that date is the collection day; so the entries
    kept for the temperatures are those of the collection day. *)
Theorem today_filter_selects_the_day (d d' : date) (rest : string) :
  printable_date d -> printable_date d' ->
  (String.prefix (isoformat d) (isoformat d' ++ rest) = true <-> d' = d) /\
  (forall data e,
      In e data -> dt_txt e = isoformat d' ++ rest ->
      (In e (today_entries (isoformat d) data) <-> d' = d)).
Proof.
  intros P P'.
  assert (K : String.prefix (isoformat d) (isoformat d' ++ rest) = true
              <-> d' = d).
  { split.
    - intros H. symmetry. apply isoformat_inj; [exact P|exact P'|].
      apply (prefix_same_length _ _ rest); [|exact H].
      now rewrite !isoformat_length.
    - intros ->. apply prefix_append. }
  split; [exact K|].
  intros data e He T. unfold today_entries. rewrite filter_In, T.
  split.
  - intros [_ H]. now apply K.
  - intros H. split; [exact He|now apply K].
Qed.

(** ** An interrupt *)

Lemma collect_loop_upto ws pre : forall i res c rest,
  (forall j, (j < List.length pre)%nat -> exceptions_only (ws (i + j)%nat) = true) ->
  collect_loop ws i (pre ++ rest) res c
  = collect_loop ws (i + List.length pre) rest
      (res ++ fst (isolate_each ws i pre c)) (snd (isolate_each ws i pre c)).
Proof.
  induction pre as [|city pre IH]; intros i res c rest X; cbn.
  - now rewrite Nat.add_0_r, app_nil_r.
  - unfold one_city.
    pose proof (process_city_raises (ws i) city) as R.
    specialize (X 0%nat ltac:(cbn; lia)) as X0. rewrite Nat.add_0_r in X0.
    specialize (R X0 c I).
    assert (X' : forall j, (j < List.length pre)%nat ->
                           exceptions_only (ws (S i + j)%nat) = true).
    { intros j Hj. specialize (X (S j) ltac:(cbn; lia)).
      now rewrite Nat.add_succ_r in X. }
    destruct (process_city (ws i) city c) as [[e|t] c'].
    + unfold Exception_raised in R. rewrite R, (IH _ _ _ _ X'). cbn.
      now rewrite <- app_assoc, Nat.add_succ_r.
    + rewrite (IH _ _ _ _ X'). cbn.
      now rewrite <- app_assoc, Nat.add_succ_r.
Qed.

(** X9: an exception that does not derive from [Exception] (an interrupt)
    is not caught at the city boundary: the loop stops at that city, the
    cities after it are not processed, no report and no completion line
    are printed, the exception leaves the program, and the store is left
    at what was committed when the exception was raised. *)
Theorem interrupt_aborts_run (wd : world) (pre post : list string)
  (city : string) (d : db) (e : exn) (c2 : conn) :
  w_connect wd = true ->
  (forall j, (j < List.length pre)%nat ->
             exceptions_only (w_city wd j) = true) ->
  let d1 := fst (create_schema (w_schema wd) d) in
  let before := isolate_each (w_city wd) 0 pre (connect d1) in
  process_city (w_city wd (List.length pre)) city (snd before) = (inl e, c2) ->
  is_Exception e = false ->
  let r := main_on (pre ++ city :: post) wd d in
  ended r = Raised e /\
  processed r = fst before /\
  printed r = snd (create_schema (w_schema wd) d) /\
  final_db r = committed c2.
Proof.
  intros C X d1 before P N r. subst r d1 before. unfold main_on.
  destruct (create_schema (w_schema wd) d) as [d1 out1]. cbn [fst snd] in *.
  unfold collect_weather. rewrite C. cbn [negb].
  rewrite (collect_loop_upto (w_city wd) pre 0 [] (connect d1)
             (city :: post) X).
  cbn [collect_loop Nat.add app]. rewrite P, N.
  assert (M : is_mysql_Error e = false) by (destruct e; auto; discriminate).
  rewrite M. cbn. now rewrite app_nil_r.
Qed.

(** ** The dimensions over a whole run *)

(** X10: over a whole run of the program, however it ends, every row of
    [dim_city] and of [dim_date] that the store had is kept as it is and
    in place, rows being only added after them, and every key of the
    current table is kept: no city, date or current key is ever updated
    away or deleted. *)
Theorem dimensions_are_append_only (cs : list string) (wd : world) (d : db) :
  let f := final_db (main_on cs wd d) in
  prefix_of (city_rows d) (city_rows f) /\
  prefix_of (date_rows d) (date_rows f) /\
  prefix_of (current_keys d) (current_keys f) /\
  (forall r, In r (city_rows d) -> In r (city_rows f)) /\
  (forall r, In r (date_rows d) -> In r (date_rows f)).
Proof.
  intros f. destruct (main_on_grows cs wd d) as [G1 G2 G3 _].
  repeat split; try assumption.
  - intros r. now apply prefix_of_in.
  - intros r. now apply prefix_of_in.
Qed.

(** ** The pipeline on a provisioned store *)

Lemma select_city_id_has_city city d cid :
  select_city_id city d = inr (Some cid, d) -> has_city cid d = true.
Proof.
  intros S. destruct (select_city_id_row _ _ _ S) as (r & Hr & _ & E).
  unfold has_city. apply existsb_exists. exists r.
  split; [exact Hr|now apply Z.eqb_eq].
Qed.

Lemma has_city_same_table cid d d' :
  dim_city d' = dim_city d -> has_city cid d' = has_city cid d.
Proof. unfold has_city, city_rows. now intros ->. Qed.

Lemma has_date_same_table did d d' :
  dim_date d' = dim_date d -> has_date did d' = has_date did d.
Proof. unfold has_date, date_rows. now intros ->. Qed.

Lemma date_resolved_has_date now d did d' :
  date_resolved now d did d' -> has_date did d' = true.
Proof.
  intros D. destruct (date_resolved_row _ _ _ _ D) as (dr & Hr & E & _).
  unfold has_date. apply existsb_exists. exists dr.
  split; [exact Hr|now apply Z.eqb_eq].
Qed.

Lemma provisioned_tables (d : db) :
  provisioned d = true ->
  exists a b c h, dim_city d = Some a /\ dim_date d = Some b /\
                  current_weather d = Some c /\
                  historical_weather d = Some h.
Proof.
  unfold provisioned.
  destruct (dim_city d), (dim_date d), (current_weather d),
    (historical_weather d); try discriminate.
  intros _. eauto 8.
Qed.

Lemma provisioned_intro (d : db) a b c h :
  dim_city d = Some a -> dim_date d = Some b ->
  current_weather d = Some c -> historical_weather d = Some h ->
  provisioned d = true.
Proof. unfold provisioned. now intros -> -> -> ->. Qed.

Lemma insert_ignore_city_provisioned city la lo d u d' :
  insert_ignore_city city la lo d = inr (u, d') ->
  provisioned d = true -> provisioned d' = true.
Proof.
  intros H P. destruct (provisioned_tables _ P) as (a & b & c & h & A & B & C & E).
  destruct (insert_ignore_city_frame _ _ _ _ _ _ H) as (F1 & F2 & F3).
  unfold insert_ignore_city in H. rewrite A in H.
  destruct (existsb _ _); inversion H; subst;
    unfold provisioned; cbn; now rewrite B, C, E.
Qed.

Lemma date_resolved_provisioned now d did d' :
  date_resolved now d did d' -> provisioned d = true -> provisioned d' = true.
Proof.
  intros [[_ ->]|[_ H]] P; [exact P|].
  destruct (provisioned_tables _ P) as (a & b & c & h & A & B & C & E).
  unfold insert_date in H. rewrite B in H.
  destruct (existsb _ _); [discriminate|]. inversion H; subst.
  unfold provisioned. cbn. now rewrite A, C, E.
Qed.

(** An upsert for a city of [dim_city] succeeds when the table exists. *)
Lemma upsert_current_runs cid rd srv d :
  provisioned d = true -> has_city cid d = true ->
  exists d', upsert_current cid rd srv d = inr (tt, d') /\
             provisioned d' = true.
Proof.
  intros P Hc. destruct (provisioned_tables _ P) as (a & b & c & h & A & B & C & E).
  unfold upsert_current. rewrite C, Hc. cbn [negb].
  destruct (existsb _ c); eexists; (split; [reflexivity|]);
    unfold provisioned; cbn; now rewrite A, B, E.
Qed.

Lemma insert_history_runs cid did tm rd d :
  provisioned d = true -> has_city cid d = true -> has_date did d = true ->
  exists d', insert_history cid did tm rd d = inr (tt, d') /\
             provisioned d' = true.
Proof.
  intros P Hc Hd.
  destruct (provisioned_tables _ P) as (a & b & c & h & A & B & C & E).
  unfold insert_history. rewrite E, Hc, Hd. cbn [negb orb].
  eexists. split; [reflexivity|].
  unfold provisioned. cbn. now rewrite A, B, C.
Qed.

Lemma answers_quiet (w : city_world) (k : stmt_id) :
  answers w = true -> w_fault w k = None.
Proof.
  unfold answers. intros H. apply andb_prop in H. destruct H as [_ H].
  rewrite forallb_forall in H. specialize (H k (all_stmts_complete k)).
  now destruct (w_fault w k).
Qed.

Lemma answers_inputs (w : city_world) (city : string) :
  answers w = true ->
  exists la lo e rest rd,
    get_city_coordinates w city = inr (la, lo) /\
    w_forecast w = inr (e :: rest) /\
    build_reading (isoformat (date_of (w_now w))) (e :: rest) = inr rd.
Proof.
  unfold answers, get_city_coordinates. intros H.
  apply andb_prop in H. destruct H as [H _].
  apply andb_prop in H. destruct H as [H1 H2].
  destruct (w_geocode w) as [x|[|[la lo] l]]; try discriminate.
  destruct (w_forecast w) as [x|[|e rest]]; try discriminate.
  destruct (weather e) as [|descr more] eqn:W; [discriminate|].
  exists la, lo, e, rest.
  unfold build_reading, aggregate, current_conditions. rewrite W.
  destruct (today_temps _ (e :: rest)); eauto.
Qed.

(** On a store with its four tables, the pipeline of a city that answers
    succeeds. *)
Lemma process_city_runs (w : city_world) (city : string) (c : conn) :
  answers w = true -> provisioned (working c) = true ->
  exists tr,
    succeeded w city c tr /\
    process_city w city c
    = (inr (temp_now (tr_reading tr)),
       {| committed := tr_db_final tr; working := tr_db_final tr |}) /\
    provisioned (tr_db_final tr) = true.
Proof.
  intros A P.
  destruct (answers_inputs w city A) as (la & lo & e & rest & rd & G & F & B).
  assert (Qc : city_stmts_quiet w)
    by (repeat split; now apply answers_quiet).
  assert (Qd : date_stmts_quiet w)
    by (repeat split; now apply answers_quiet).
  destruct (provisioned_tables _ P) as (ta & tb & tc & th & Ta & Tb & Tc & Th).
  destruct (get_or_create_city_runs w city la lo c ta Ta Qc)
    as (cid & d1 & R1 & I1 & S1).
  pose proof (insert_ignore_city_provisioned _ _ _ _ _ _ I1 P) as P1.
  assert (Td1 : dim_date (working {| committed := d1; working := d1 |})
                <> None).
  { cbn. destruct (provisioned_tables _ P1) as (_ & b & _ & _ & _ & -> & _).
    discriminate. }
  destruct (get_or_create_date_runs w (w_now w) _ Td1 Qd) as (did & c2 & R2).
  destruct (get_or_create_date_inr _ _ _ _ _ R2) as (d2 & -> & D).
  pose proof (date_resolved_provisioned _ _ _ _ D P1) as P2.
  destruct (date_resolved_frame _ _ _ _ D) as (E1 & _).
  assert (Hc2 : has_city cid d2 = true).
  { rewrite (has_city_same_table _ _ _ E1).
    exact (select_city_id_has_city _ _ _ S1). }
  pose proof (date_resolved_has_date _ _ _ _ D) as Hd2.
  destruct (upsert_current_runs cid rd (w_server_now w) d2 P2 Hc2)
    as (d3 & U & P3).
  destruct (upsert_current_frame _ _ _ _ _ _ U) as (U1 & U2 & _).
  assert (Hc3 : has_city cid d3 = true)
    by now rewrite (has_city_same_table _ _ _ U1).
  assert (Hd3 : has_date did d3 = true)
    by now rewrite (has_date_same_table _ _ _ U2).
  destruct (insert_history_runs cid did (strftime_HMS (w_now w)) rd d3
              P3 Hc3 Hd3) as (d4 & IH & P4).
  exists {| tr_lat := la; tr_lon := lo; tr_city_id := cid;
            tr_date_id := did; tr_data := e :: rest; tr_reading := rd;
            tr_db_city := d1; tr_db_date := d2; tr_db_current := d3;
            tr_db_final := d4 |}.
  cbn [tr_reading tr_db_final].
  split; [unfold succeeded; cbn; repeat split; assumption|].
  split; [|exact P4].
  unfold process_city, bind. rewrite G. cbn [lift ret]. rewrite R1, R2, F.
  cbn [lift ret]. rewrite B. cbn [lift ret]. unfold execute, commit.
  rewrite !(answers_quiet w _ A). cbn [working committed].
  rewrite U. cbn [working committed]. now rewrite IH.
Qed.

(** X11: on a connection whose working image has the four tables, the
    pipeline of a city for which the geocoder has a match, the forecast
    has a first entry with a weather element and the store does not fail,
    succeeds: the foreign keys of the two fact rows are met by the rows
    the pipeline has just resolved, the history gets one row, everything
    is committed, and the value returned is the [temp_now] of the reading
    built from the forecast. *)
Theorem process_city_succeeds (w : city_world) (city : string) (c : conn) :
  answers w = true -> provisioned (working c) = true ->
  exists data rd c',
    w_forecast w = inr data /\
    build_reading (isoformat (date_of (w_now w))) data = inr rd /\
    process_city w city c = (inr (temp_now rd), c') /\
    committed c' = working c' /\
    provisioned (working c') = true /\
    List.length (history_rows (working c'))
    = S (List.length (history_rows (working c))) /\
    (1 <= count_named city (working c'))%nat.
Proof.
  intros A P. destruct (process_city_runs w city c A P) as (tr & S & R & P').
  destruct (succeeded_history _ _ _ _ S) as [hid Hh].
  pose proof (succeeded_city _ _ _ _ S) as Sel.
  pose proof S as (_ & _ & _ & _ & F & B & _).
  exists (tr_data tr), (tr_reading tr),
    {| committed := tr_db_final tr; working := tr_db_final tr |}.
  split; [exact F|]. split; [exact B|]. split; [exact R|].
  cbn [working committed].
  split; [reflexivity|]. split; [exact P'|]. split.
  - rewrite Hh, length_app. cbn. lia.
  - destruct (select_city_id_row _ _ _ Sel) as (r & Hr & N & _).
    unfold count_named. apply existsb_filter_length.
    apply existsb_exists. exists r. split; [exact Hr|now apply String.eqb_eq].
Qed.

(** ** A run in which nothing fails *)

(** A provisioning that meets no failure leaves the four tables, prints
    its success line and adds no row. *)
Lemma create_schema_provisions (env : schema_env) (d : db) :
  healthy env = true ->
  snd (create_schema env d) = [SchemaCreated] /\
  provisioned (fst (create_schema env d)) = true /\
  history_rows (fst (create_schema env d)) = history_rows d /\
  city_rows (fst (create_schema env d)) = city_rows d.
Proof.
  unfold healthy, create_schema. cbn [forallb schema_tables run_ddl].
  unfold create_table_if_not_exists. intros H.
  repeat (apply andb_prop in H; destruct H as [? H]).
  repeat match goal with
         | E : _ && _ = true |- _ => apply andb_prop in E; destruct E
         end.
  repeat match goal with
         | E : ?x = true |- context [?x] => rewrite E
         end.
  destruct d as [[a|] [b|] [c|] [h|]]; cbn; repeat split.
Qed.

Lemma collect_loop_all_succeed ws cs : forall i res c,
  (forall j, answers (ws j) = true) ->
  provisioned (working c) = true ->
  exists entries c',
    collect_loop ws i cs res c = (None, (res ++ entries)%list, c') /\
    map entry_city entries = cs /\
    all_success entries = true /\
    provisioned (working c') = true /\
    (committed c = working c -> committed c' = working c') /\
    List.length (history_rows (working c'))
    = (List.length (history_rows (working c)) + List.length cs)%nat.
Proof.
  induction cs as [|city rest IH]; intros i res c A P; cbn [collect_loop].
  - exists [], c. rewrite app_nil_r. cbn. repeat split; auto.
  - destruct (process_city_runs (ws i) city c (A i) P) as (tr & S & R & P').
    destruct (succeeded_history _ _ _ _ S) as [hid Hh].
    rewrite R.
    destruct (IH (Datatypes.S i)
                (res ++ [Success city (temp_now (tr_reading tr))])%list
                {| committed := tr_db_final tr; working := tr_db_final tr |}
                A P')
      as (entries & c' & L & M & O & P'' & Cm & Len).
    exists (Success city (temp_now (tr_reading tr)) :: entries), c'.
    cbn [working committed] in *.
    split; [rewrite L; now rewrite <- app_assoc|].
    split; [cbn; now rewrite M|].
    split; [exact O|]. split; [exact P''|]. split; [auto|].
    rewrite Len, Hh, length_app. cbn. lia.
Qed.

(** X12: a run in which the provisioning, the connection of the batch and
    every city meet no failure prints the schema line, the report header,
    one success line per city in the order of the list and the completion
    line; it leaves the four tables and adds exactly one history row per
    city of the list. *)
Theorem healthy_run_reports_every_city (cs : list string) (wd : world)
  (d : db) :
  healthy (w_schema wd) = true ->
  w_connect wd = true ->
  (forall i, answers (w_city wd i) = true) ->
  let r := main_on cs wd d in
  ended r = Returned /\
  map entry_city (processed r) = cs /\
  all_success (processed r) = true /\
  printed r
  = (SchemaCreated :: ReportHeader
       :: map report_line (processed r) ++ [EtlComplete])%list /\
  provisioned (final_db r) = true /\
  List.length (history_rows (final_db r))
  = (List.length (history_rows d) + List.length cs)%nat.
Proof.
  intros H C A r. subst r. unfold main_on.
  destruct (create_schema_provisions (w_schema wd) d H) as (O & P & Hh & _).
  destruct (create_schema (w_schema wd) d) as [d1 out1]. cbn [fst snd] in *.
  subst out1. unfold collect_weather. rewrite C. cbn [negb].
  destruct (collect_loop_all_succeed (w_city wd) cs 0 [] (connect d1) A P)
    as (entries & c' & L & M & S & P' & Cm & Len).
  rewrite L. cbn. rewrite <- (Cm eq_refl) in *. cbn [working connect] in Len.
  repeat split; try assumption. now rewrite Len, Hh.
Qed.

(** ** A provisioning that is denied *)

(** X13: when the connection opens and [CREATE TABLE] is denied on one
    table but on none before it, the provisioning prints the error and
    stops there: the tables before it exist afterwards, that table and the
    tables after it are as they were (none of them is created), and every
    row the store had is kept. *)
Theorem create_schema_stops_at_denied (env : schema_env) (d : db)
  (pre post : list table_name) (t : table_name) :
  schema_connect env = true ->
  schema_tables = (pre ++ t :: post)%list ->
  (forall x, In x pre -> create_priv env x = true) ->
  create_priv env t = false ->
  let d' := fst (create_schema env d) in
  snd (create_schema env d) = [SchemaErrorLine access_denied] /\
  (forall x, In x pre -> has_table x d' = true) /\
  (forall x, In x (t :: post) -> has_table x d' = has_table x d) /\
  grows d d'.
Proof.
  intros C E Hpre Ht d'.
  assert (Cases :
           (pre = [] /\ t = Tdim_city) \/
           (pre = [Tdim_city] /\ t = Tdim_date) \/
           (pre = [Tdim_city; Tdim_date] /\ t = Tcurrent_weather) \/
           (pre = [Tdim_city; Tdim_date; Tcurrent_weather] /\
            t = Thistorical_weather)).
  { unfold schema_tables in E.
    destruct pre as [|p1 [|p2 [|p3 [|p4 pre]]]]; cbn in E.
    - injection E as <- _. auto.
    - injection E as <- <- _. auto.
    - injection E as <- <- <- _. auto 6.
    - injection E as <- <- <- <- _. auto 6.
    - destruct pre; discriminate E. }
  assert (Post : forall x, In x (t :: post) ->
                           In x schema_tables /\ ~ In x pre).
  { intros x Hx. rewrite E. split; [apply in_or_app; now right|].
    destruct Cases as [[-> ->]|[[-> ->]|[[-> ->]|[-> ->]]]];
      unfold schema_tables in E; cbn in E; injection E as <-;
      cbn in Hx |- *; intuition congruence. }
  split; [|split; [|split; [|apply create_schema_grows]]]; subst d';
    unfold create_schema; rewrite C; cbn [negb schema_tables run_ddl];
    unfold create_table_if_not_exists.
  - destruct Cases as [[-> ->]|[[-> ->]|[[-> ->]|[-> ->]]]];
      cbn in Hpre;
      rewrite ?(Hpre Tdim_city), ?(Hpre Tdim_date),
        ?(Hpre Tcurrent_weather), ?Ht by tauto;
      destruct d as [[a|] [b|] [c|] [h|]]; reflexivity.
  - intros x Hx.
    destruct Cases as [[-> ->]|[[-> ->]|[[-> ->]|[-> ->]]]];
      cbn in Hpre, Hx;
      rewrite ?(Hpre Tdim_city), ?(Hpre Tdim_date),
        ?(Hpre Tcurrent_weather), ?Ht by tauto;
      destruct d as [[a|] [b|] [c|] [h|]];
      repeat (destruct Hx as [<-|Hx]; [reflexivity|]); contradiction.
  - intros x Hx. destruct (Post x Hx) as [Hs Hn]. clear Post Hx.
    destruct Cases as [[-> ->]|[[-> ->]|[[-> ->]|[-> ->]]]];
      cbn in Hpre, Hn, Hs;
      rewrite ?(Hpre Tdim_city), ?(Hpre Tdim_date),
        ?(Hpre Tcurrent_weather), ?Ht by tauto;
      destruct d as [[a|] [b|] [c|] [h|]];
      destruct x; cbn; try reflexivity; exfalso; tauto.
Qed.

(** ** Why a pipeline fails *)

Lemma bind_inl {A B} (m : M A) (k : A -> M B) (c c' : conn) (e : exn) :
  bind m k c = (inl e, c') ->
  m c = (inl e, c') \/ exists a c1, m c = (inr a, c1) /\ k a c1 = (inl e, c').
Proof.
  unfold bind. destruct (m c) as [[x|a] c1] eqn:E; intros H.
  - left. now injection H as -> ->.
  - right. eauto.
Qed.

Lemma lift_inl {A} (r : exn + A) (c c' : conn) (e : exn) :
  lift r c = (inl e, c') -> r = inl e.
Proof.
  destruct r as [x|a]; cbn; intros H; [now injection H as <-|discriminate].
Qed.

Lemma execute_inl {A} (w : city_world) (k : stmt_id)
  (f : db -> exn + (A * db)) (c c' : conn) (e : exn) :
  w_fault w k = None ->
  execute w k f c = (inl e, c') -> f (working c) = inl e.
Proof.
  unfold execute. intros ->.
  destruct (f (working c)) as [x|[a d]]; intros H; [|discriminate].
  now injection H as <-.
Qed.

Lemma missing_table_not_provisioned (d : db) :
  dim_city d = None \/ dim_date d = None \/ current_weather d = None \/
  historical_weather d = None ->
  provisioned d = false.
Proof.
  unfold provisioned.
  destruct (dim_city d), (dim_date d), (current_weather d),
    (historical_weather d); intuition discriminate.
Qed.

Lemma get_or_create_date_inl (w : city_world) (now : datetime)
  (c c' : conn) (e : exn) :
  date_stmts_quiet w ->
  get_or_create_date w now c = (inl e, c') ->
  dim_date (working c) = None /\ e = no_such_table.
Proof.
  intros Q H. destruct (dim_date (working c)) as [t|] eqn:T.
  - assert (N : dim_date (working c) <> None) by (rewrite T; discriminate).
    destruct (get_or_create_date_runs w now c N Q) as (did & c1 & R).
    rewrite R in H. discriminate H.
  - destruct Q as (Q1 & _).
    unfold get_or_create_date, bind, execute in H. rewrite Q1 in H.
    unfold select_date_id in H. rewrite T in H. injection H as <- _. auto.
Qed.

Lemma upsert_current_inl cid rd srv d e :
  has_city cid d = true ->
  upsert_current cid rd srv d = inl e ->
  current_weather d = None /\ e = no_such_table.
Proof.
  unfold upsert_current. intros ->. cbn [negb].
  destruct (current_weather d) as [t|];
    [destruct (existsb _ t); discriminate|].
  intros H. injection H as <-. auto.
Qed.

Lemma insert_history_inl cid did tm rd d e :
  has_city cid d = true -> has_date did d = true ->
  insert_history cid did tm rd d = inl e ->
  historical_weather d = None /\ e = no_such_table.
Proof.
  unfold insert_history. intros -> ->. cbn [negb orb].
  destruct (historical_weather d) as [t|]; [discriminate|].
  intros H. injection H as <-. auto.
Qed.

(** X14: when the store does not fail by itself, a pipeline raises for one
    of four reasons only: the geocoding raised or found no match, the
    forecast request raised, no reading could be built from the forecast,
    or one of the four tables does not exist.  In particular the pipeline
    never fails on a foreign key or on a duplicate date, and never on an
    empty answer to its select. *)
Theorem process_city_failure_causes (w : city_world) (city : string)
  (c c' : conn) (e : exn) :
  (forall k, w_fault w k = None) ->
  process_city w city c = (inl e, c') ->
  get_city_coordinates w city = inl e \/
  w_forecast w = inl e \/
  (exists data,
      w_forecast w = inr data /\
      build_reading (isoformat (date_of (w_now w))) data = inl e) \/
  (e = no_such_table /\ provisioned (working c) = false).
Proof.
  intros Q H.
  assert (Qc : city_stmts_quiet w) by (repeat split; apply Q).
  assert (Qd : date_stmts_quiet w) by (repeat split; apply Q).
  unfold process_city in H.
  apply bind_inl in H. destruct H as [H|([la lo] & c0 & H0 & H)].
  { left. exact (lift_inl _ _ _ _ H). }
  apply lift_inr in H0. destruct H0 as [G ->].
  apply bind_inl in H. destruct H as [H|(cid & c1 & H1 & H)].
  { do 3 right. destruct (get_or_create_city_inl _ _ _ _ _ _ _ Qc H)
      as (T & -> & _).
    split; [reflexivity|]. apply missing_table_not_provisioned. auto. }
  apply get_or_create_city_inr in H1. destruct H1 as (d1 & -> & I1 & S1).
  destruct (insert_ignore_city_frame _ _ _ _ _ _ I1) as (A1 & A2 & A3).
  apply bind_inl in H. destruct H as [H|(did & c2 & H2 & H)].
  { do 3 right. destruct (get_or_create_date_inl _ _ _ _ _ Qd H) as (T & ->).
    split; [reflexivity|]. apply missing_table_not_provisioned.
    cbn in T. rewrite A1 in T. auto. }
  apply get_or_create_date_inr in H2. destruct H2 as (d2 & -> & D).
  destruct (date_resolved_frame _ _ _ _ D) as (B1 & B2 & B3).
  apply bind_inl in H. destruct H as [H|(data & c3 & H3 & H)].
  { right. left. exact (lift_inl _ _ _ _ H). }
  apply lift_inr in H3. destruct H3 as [F ->].
  apply bind_inl in H. destruct H as [H|(rd & c4 & H4 & H)].
  { right. right. left. exists data. split; [exact F|].
    exact (lift_inl _ _ _ _ H). }
  apply lift_inr in H4. destruct H4 as [B ->].
  assert (Hc2 : has_city cid d2 = true).
  { rewrite (has_city_same_table _ _ _ B1).
    exact (select_city_id_has_city _ _ _ S1). }
  pose proof (date_resolved_has_date _ _ _ _ D) as Hd2.
  apply bind_inl in H. destruct H as [H|([] & c5 & H5 & H)].
  { do 3 right. apply (execute_inl _ _ _ _ _ _ (Q _)) in H.
    cbn [working] in H.
    destruct (upsert_current_inl _ _ _ _ _ Hc2 H) as (T & ->).
    split; [reflexivity|]. apply missing_table_not_provisioned.
    rewrite B2, A2 in T. auto. }
  apply execute_inr in H5. destruct H5 as (d3 & _ & U & ->).
  cbn [working committed] in *.
  destruct (upsert_current_frame _ _ _ _ _ _ U) as (U1 & U2 & U3).
  apply bind_inl in H. destruct H as [H|([] & c6 & H6 & H)].
  { do 3 right. apply (execute_inl _ _ _ _ _ _ (Q _)) in H.
    cbn [working] in H.
    assert (Hc3 : has_city cid d3 = true)
      by now rewrite (has_city_same_table _ _ _ U1).
    assert (Hd3 : has_date did d3 = true)
      by now rewrite (has_date_same_table _ _ _ U2).
    destruct (insert_history_inl _ _ _ _ _ _ Hc3 Hd3 H) as (T & ->).
    split; [reflexivity|]. apply missing_table_not_provisioned.
    rewrite U3, B3, A3 in T. auto. }
  apply bind_inl in H. destruct H as [H|([] & c7 & H7 & H)].
  { unfold commit in H. rewrite (Q CommitFacts) in H. discriminate H. }
  discriminate H.
Qed.

(** * Concrete runs for the further properties *)

Lemma get_or_create_date_idempotent_witness :
  let c1 := snd (get_or_create_date sample_city_world sample_now
                   (connect provisioned_db)) in
  date_of sample_now = date_of sample_evening /\
  get_or_create_date sample_city_world sample_now (connect provisioned_db)
  = (inr 1, c1) /\
  get_or_create_date sample_city_world sample_evening c1 = (inr 1, c1).
Proof.
  intros c1.
  assert (H : get_or_create_date sample_city_world sample_now
                (connect provisioned_db) = (inr 1, c1)) by reflexivity.
  split; [reflexivity|]. split; [exact H|].
  apply (proj2 (get_or_create_date_idempotent sample_city_world
                  sample_city_world sample_now sample_evening
                  (connect provisioned_db) eq_refl) 1 c1 H eq_refl).
Defined.

Lemma get_or_create_date_new_row_witness :
  let c1 := snd (get_or_create_date sample_city_world sample_now
                   (connect provisioned_db)) in
  select_date_id (date_of sample_now) provisioned_db
  = inr (None, provisioned_db) /\
  get_or_create_date sample_city_world sample_now (connect provisioned_db)
  = (inr 1, c1) /\
  date_rows (working c1) = [new_date_row sample_now 1].
Proof.
  intros c1.
  assert (S : select_date_id (date_of sample_now)
                (working (connect provisioned_db))
              = inr (None, working (connect provisioned_db))) by reflexivity.
  assert (H : get_or_create_date sample_city_world sample_now
                (connect provisioned_db) = (inr 1, c1)) by reflexivity.
  split; [exact S|]. split; [exact H|].
  apply (get_or_create_date_new_row sample_city_world sample_now
           (connect provisioned_db) c1 1 S H).
Defined.

Lemma get_or_create_city_raises_only_witness :
  city_stmts_quiet sample_city_world /\
  get_or_create_city sample_city_world "Rabat" (34 # 1) ((-6) # 1)
    (connect no_tables) = (inl no_such_table, connect no_tables) /\
  dim_city (working (connect no_tables)) = None.
Proof.
  assert (Q : city_stmts_quiet sample_city_world)
    by (repeat split; reflexivity).
  assert (H : get_or_create_city sample_city_world "Rabat" (34 # 1)
                ((-6) # 1) (connect no_tables)
              = (inl no_such_table, connect no_tables)) by reflexivity.
  split; [exact Q|]. split; [exact H|].
  apply (get_or_create_city_raises_only sample_city_world "Rabat" (34 # 1)
           ((-6) # 1) (connect no_tables) (connect no_tables)
           no_such_table Q H).
Defined.

Lemma reading_temperatures_ordered_witness :
  build_reading "2024-05-01" sample_data = inr sample_reading /\
  (temp_min sample_reading <= temp_now sample_reading)%Q /\
  (temp_now sample_reading <= temp_max sample_reading)%Q.
Proof.
  assert (B : build_reading "2024-05-01" sample_data = inr sample_reading)
    by reflexivity.
  split; [exact B|].
  destruct (reading_temperatures_ordered "2024-05-01" sample_data
              sample_reading B) as (L1 & L2 & _).
  split; assumption.
Defined.

Lemma fetch_failure_keeps_dimensions_witness :
  get_city_coordinates no_forecast_world "Rabat" = inr (34 # 1, (-6) # 1) /\
  w_forecast no_forecast_world = inl (RequestError "timeout") /\
  exists c',
    process_city no_forecast_world "Rabat" (connect provisioned_db)
    = (inl (RequestError "timeout"), c') /\
    committed c' = working c'.
Proof.
  split; [reflexivity|]. split; [reflexivity|].
  destruct (fetch_failure_keeps_dimensions no_forecast_world "Rabat"
              (connect provisioned_db) (34 # 1) ((-6) # 1)
              (RequestError "timeout") eq_refl)
    as (c' & P & C & _).
  - discriminate.
  - discriminate.
  - repeat split; reflexivity.
  - repeat split; reflexivity.
  - left. reflexivity.
  - exists c'. split; assumption.
Defined.

Lemma today_filter_selects_the_day_witness :
  printable_date (2024, 5, 1) /\
  String.prefix (isoformat (2024, 5, 1))
    (isoformat (2024, 5, 1) ++ " 09:00:00") = true.
Proof.
  assert (P : printable_date (2024, 5, 1)) by (cbn; lia).
  split; [exact P|].
  apply (proj1 (today_filter_selects_the_day (2024, 5, 1) (2024, 5, 1)
                  " 09:00:00" P P)).
  reflexivity.
Defined.

Lemma interrupt_aborts_run_witness :
  let before := isolate_each (w_city interrupted_world) 0 ["Rabat"]
                  (connect (fst (create_schema granting_env no_tables))) in
  process_city (w_city interrupted_world 1) "Safi" (snd before)
  = (inl KeyboardInterrupt, snd before) /\
  ended (main_on ["Rabat"; "Safi"; "Fes"] interrupted_world no_tables)
  = Raised KeyboardInterrupt /\
  processed (main_on ["Rabat"; "Safi"; "Fes"] interrupted_world no_tables)
  = fst before.
Proof.
  intros before.
  assert (P : process_city (w_city interrupted_world 1) "Safi" (snd before)
              = (inl KeyboardInterrupt, snd before)) by reflexivity.
  split; [exact P|].
  assert (X : forall j, (j < List.length ["Rabat"])%nat ->
                        exceptions_only (w_city interrupted_world j) = true).
  { intros j Hj. cbn in Hj. assert (j = 0%nat) as -> by lia. reflexivity. }
  destruct (interrupt_aborts_run interrupted_world ["Rabat"] ["Fes"] "Safi"
              no_tables KeyboardInterrupt (snd before) eq_refl X P eq_refl)
    as (E & R & _).
  split; assumption.
Defined.

Lemma dimensions_are_append_only_witness :
  In "Rabat" (map name (city_rows (committed after_rabat))) /\
  In "Rabat"
    (map name
       (city_rows (final_db (main_on cities healthy_world
                               (committed after_rabat))))).
Proof.
  assert (H : In "Rabat" (map name (city_rows (committed after_rabat))))
    by (left; reflexivity).
  split; [exact H|].
  apply in_map_iff in H. destruct H as (r & <- & Hr). apply in_map.
  exact (proj1 (proj2 (proj2 (proj2
           (dimensions_are_append_only cities healthy_world
              (committed after_rabat))))) r Hr).
Defined.

Lemma process_city_succeeds_witness :
  answers sample_city_world = true /\
  provisioned (working (connect provisioned_db)) = true /\
  exists t c',
    process_city sample_city_world "Rabat" (connect provisioned_db)
    = (inr t, c').
Proof.
  split; [reflexivity|]. split; [reflexivity|].
  destruct (process_city_succeeds sample_city_world "Rabat"
              (connect provisioned_db) eq_refl eq_refl)
    as (data & rd & c' & _ & _ & P & _).
  eauto.
Defined.

Lemma healthy_run_reports_every_city_witness :
  healthy (w_schema healthy_world) = true /\
  (forall i, answers (w_city healthy_world i) = true) /\
  map entry_city (processed (main_on cities healthy_world no_tables))
  = cities /\
  List.length (history_rows (final_db (main_on cities healthy_world
                                         no_tables))) = 13%nat.
Proof.
  assert (A : forall i, answers (w_city healthy_world i) = true)
    by (intros i; reflexivity).
  split; [reflexivity|]. split; [exact A|].
  destruct (healthy_run_reports_every_city cities healthy_world no_tables
              eq_refl eq_refl A) as (_ & M & _ & _ & _ & L).
  split; [exact M|exact L].
Defined.

Lemma create_schema_stops_at_denied_witness :
  create_priv partial_env Thistorical_weather = false /\
  snd (create_schema partial_env no_tables)
  = [SchemaErrorLine access_denied] /\
  has_table Tcurrent_weather partial_db = true /\
  has_table Thistorical_weather partial_db = false.
Proof.
  split; [reflexivity|].
  destruct (create_schema_stops_at_denied partial_env no_tables
              [Tdim_city; Tdim_date; Tcurrent_weather] []
              Thistorical_weather eq_refl eq_refl)
    as (O & Pre & Post & _).
  - intros x [<-|[<-|[<-|[]]]]; reflexivity.
  - reflexivity.
  - split; [exact O|]. split.
    + apply Pre. right. right. left. reflexivity.
    + apply (Post Thistorical_weather). left. reflexivity.
Defined.

Lemma process_city_failure_causes_witness :
  (forall k, w_fault sample_city_world k = None) /\
  process_city sample_city_world "Rabat" (connect partial_db)
  = (inl no_such_table, rabat_pending) /\
  provisioned (working (connect partial_db)) = false.
Proof.
  assert (Q : forall k, w_fault sample_city_world k = None)
    by (intros k; reflexivity).
  assert (P : process_city sample_city_world "Rabat" (connect partial_db)
              = (inl no_such_table, rabat_pending)) by reflexivity.
  split; [exact Q|]. split; [exact P|].
  destruct (process_city_failure_causes sample_city_world "Rabat"
              (connect partial_db) rabat_pending no_such_table Q P)
    as [G|[F|[(data & _ & B)|[_ N]]]].
  - discriminate G.
  - discriminate F.
  - reflexivity.
  - exact N.
Defined.
